(** * zarrita: store, array engine and metadata handling

    A shallow embedding of [zarrita/store.py] and [zarrita/array.py].
    Modules:
    - [LocalStore]: the local-filesystem store ([LocalStore._cat_file],
      [get_async], [delete_async], [exists_async]) over a model of the
      file system in which path resolution can fail the way POSIX fails.
    - [Meta]: [Array.create_async], [_validate_metadata], [_save_metadata].
    - [Decode]: the dtype/shape fix-up of [Array._decode_chunk].
    - [Normalize]: the value normalisation at the start of [Array._set_async].
    - [Engine]: chunked read and write ([_get_async], [_read_chunk],
      [_set_async], [_write_chunk], [_write_chunk_to_store]).
    - [Resize]: [Array.resize_async].
    - [LocalStoreWrite]: the writes of the local store ([_put_file],
      [set_async]) with [Path.mkdir(parents=True, exist_ok=True)].
    - [StorePathJoin]: [_dereference_path] and [StorePath.__truediv__]. *)

From Stdlib Require Import ZArith List Lia Bool QArith.
From stdpp Require Import base gmap list strings.
Import ListNotations.

Open Scope Z_scope.

(** Python exceptions raised by the file system ([OSError] subclasses). *)
Inductive oserror :=
| FileNotFoundError
| IsADirectoryError
| NotADirectoryError.

(** ** The local store *)
Module LocalStore.

(** A node of the file system under the store's root. *)
Inductive node :=
| NFile (contents : list Byte.byte)
| NDir.

(** A path below the root, as its list of components
    ([self.root / key] with [key] split at "/"). The root itself is a
    directory; every other directory or file is an entry of [fs]. *)
Abbreviation path := (list string).
Abbreviation fs := (gmap path node).

(** POSIX path resolution: every proper prefix must be a directory. A
    missing prefix gives ENOENT, a prefix that is a file gives ENOTDIR. *)
Fixpoint parent_error (m : fs) (pre rest : path) : option oserror :=
  match rest with
  | [] | [_] => None
  | s :: rest' =>
      match m !! (pre ++ [s]) with
      | Some NDir => parent_error m (pre ++ [s]) rest'
      | Some (NFile _) => Some NotADirectoryError
      | None => Some FileNotFoundError
      end
  end.

Definition resolve (m : fs) (p : path) : node + oserror :=
  match parent_error m [] p with
  | Some e => inr e
  | None =>
      match m !! p with
      | Some n => inl n
      | None => inr FileNotFoundError
      end
  end.

(** [path.open("rb")] / [path.read_bytes()]: opening a directory
    raises [IsADirectoryError]. *)
Definition open_rb (m : fs) (p : path) : list Byte.byte + oserror :=
  match resolve m p with
  | inl (NFile d) => inl d
  | inl NDir => inr IsADirectoryError
  | inr e => inr e
  end.

(** The [ValueError] CPython's [BufferedReader.read(n)] raises for a
    count [n < -1] ("read length must be non-negative or -1"). *)
Inductive value_error := ValueError.

(** [f.read(n)] at position [pos]: [n = -1] reads to the end of the
    file, [n < -1] raises; [f.read()] is [py_read d pos (-1)]. *)
Definition py_read (d : list Byte.byte) (pos n : Z) : list Byte.byte + value_error :=
  if n =? -1 then inl (skipn (Z.to_nat pos) d)
  else if n <? -1 then inr ValueError
  else inl (firstn (Z.to_nat n) (skipn (Z.to_nat pos) d)).

(** [LocalStore._cat_file] once the file is open, on its contents [d].
    [size = f.seek(0, io.SEEK_END)] leaves the position at the end of
    the file, where it stays when [start] is [None]. *)
Definition cat_contents (d : list Byte.byte) (start stop : option Z)
  : list Byte.byte + value_error :=
  match start, stop with
  | None, None => inl d
  | _, _ =>
      let size := Z.of_nat (length d) in
      let pos :=
        match start with
        | None => size
        | Some s => if 0 <=? s then s else Z.max 0 (size + s)
        end in
      match stop with
      | Some e =>
          let e' := if e <? 0 then size + e else e in
          py_read d pos (e' - pos)
      | None => py_read d pos (-1)
      end
  end.

(** [_cat_file]: opening can raise an [OSError]; reading can raise the
    [ValueError] of [py_read]. *)
Definition cat_file (m : fs) (p : path) (start stop : option Z)
  : (list Byte.byte + value_error) + oserror :=
  match open_rb m p with
  | inl d => inl (cat_contents d start stop)
  | inr e => inr e
  end.

(** [LocalStore.get_async]: the three not-found-like errors give [None],
    a [ValueError] propagates; [byte_range] is the pair
    [(byte_range[0], byte_range[1])]. *)
Definition get_async (m : fs) (key : path)
  (byte_range : option (option Z * option Z)) : option (list Byte.byte) + value_error :=
  let r := match byte_range with
           | Some (s, e) => cat_file m key s e
           | None => cat_file m key None None
           end in
  match r with
  | inl (inl v) => inl (Some v)
  | inl (inr ve) => inr ve
  | inr _ => inl None
  end.

(** [path.unlink(missing_ok=True)]: only [FileNotFoundError] is
    swallowed. The result is the new file system and the raised error. *)
Definition delete_async (m : fs) (key : path) : fs * option oserror :=
  match resolve m key with
  | inl (NFile _) => (delete key m, None)
  | inl NDir => (m, Some IsADirectoryError)
  | inr FileNotFoundError => (m, None)
  | inr e => (m, Some e)
  end.

(** [path.exists()]: resolution errors read as [False]. *)
Definition exists_async (m : fs) (key : path) : bool :=
  match resolve m key with
  | inl _ => true
  | inr _ => false
  end.

(** The byte range the store contract describes: [start] counted from
    the end when negative (clamped at 0), [stop] exclusive and counted
    from the end when negative, either end optional. *)
Definition range_start (n : Z) (start : option Z) : Z :=
  match start with
  | None => 0
  | Some s => if 0 <=? s then s else Z.max 0 (n + s)
  end.

Definition range_stop (n : Z) (stop : option Z) : Z :=
  match stop with
  | None => n
  | Some e => if e <? 0 then n + e else e
  end.

Definition spec_subrange (d : list Byte.byte) (start stop : option Z)
  : list Byte.byte :=
  let n := Z.of_nat (length d) in
  let s := range_start n start in
  let e := range_stop n stop in
  firstn (Z.to_nat (e - s)) (skipn (Z.to_nat s) d).

End LocalStore.

(** ** Writes of [LocalStore] ([_put_file], [set_async]) *)

Module LocalStoreWrite.
Import LocalStore.

(** The error number of a failing system call (the [OSError] subclass
    Python raises): missing entry, a path component that is a file, an
    existing entry, a directory where a file is needed, an invalid
    argument (a negative seek). *)
Inductive errno := ENOENT | ENOTDIR | EEXIST | EISDIR | EINVAL.

(** The error of resolving the parent directories of [p]. *)
Definition parent_errno (m : fs) (p : path) : option errno :=
  match parent_error m [] p with
  | Some FileNotFoundError => Some ENOENT
  | Some NotADirectoryError => Some ENOTDIR
  | Some IsADirectoryError => Some EISDIR
  | None => None
  end.

(** [Path.is_dir()]: the root is a directory; resolution errors read as
    [False]. *)
Definition is_dir (m : fs) (p : path) : bool :=
  match p with
  | [] => true
  | _ => match resolve m p with
         | inl NDir => true
         | _ => false
         end
  end.

(** [os.mkdir(p)]. *)
Definition os_mkdir (m : fs) (p : path) : fs + errno :=
  match p with
  | [] => inr EEXIST
  | _ => match parent_errno m p with
         | Some e => inr e
         | None => match m !! p with
                   | Some _ => inr EEXIST
                   | None => inl (<[p := NDir]> m)
                   end
         end
  end.

(** [Path.mkdir(parents=True, exist_ok=True)]: on [FileNotFoundError]
    create the parent the same way and retry once without [parents];
    any other [OSError] is ignored when [p] is a directory. [fuel] is the
    length of [p]: every recursive call is on [p.parent]. *)
Fixpoint mkdir_p (fuel : nat) (m : fs) (p : path) : fs + errno :=
  match os_mkdir m p with
  | inl m' => inl m'
  | inr ENOENT =>
      match fuel, p with
      | O, _ | _, [] => inr ENOENT
      | S fuel', _ =>
          match mkdir_p fuel' m (removelast p) with
          | inr e => inr e
          | inl m1 =>
              match os_mkdir m1 p with
              | inl m2 => inl m2
              | inr ENOENT => inr ENOENT
              | inr e => if is_dir m1 p then inl m1 else inr e
              end
          end
      end
  | inr e => if is_dir m p then inl m else inr e
  end.

Definition mkdir_parents (m : fs) (p : path) : fs + errno :=
  mkdir_p (length p) m p.

(** [path.write_bytes(value)]: [open(path, "wb")] creates or truncates
    the file. *)
Definition write_bytes (m : fs) (p : path) (v : list Byte.byte) : fs + errno :=
  match p with
  | [] => inr EISDIR
  | _ => match parent_errno m p with
         | Some e => inr e
         | None => match m !! p with
                   | Some NDir => inr EISDIR
                   | _ => inl (<[p := NFile v]> m)
                   end
         end
  end.

(** [f.seek(start); f.write(value)] on a file holding [d]: a seek past the
    end leaves a hole of zero bytes. *)
Definition write_at (d v : list Byte.byte) (start : nat) : list Byte.byte :=
  firstn start d ++ repeat Byte.x00 (start - length d) ++ v ++ skipn (start + length v) d.

(** [with path.open("r+b") as f: f.seek(start); f.write(value)]; a
    negative [start] makes the seek raise. *)
Definition write_range (m : fs) (p : path) (v : list Byte.byte) (start : Z) : fs + errno :=
  match p with
  | [] => inr EISDIR
  | _ => match resolve m p with
         | inl (NFile d) =>
             if start <? 0 then inr EINVAL
             else inl (<[p := NFile (write_at d v (Z.to_nat start))]> m)
         | inl NDir => inr EISDIR
         | inr FileNotFoundError => inr ENOENT
         | inr NotADirectoryError => inr ENOTDIR
         | inr IsADirectoryError => inr EISDIR
         end
  end.

(** [LocalStore._put_file]. *)
Definition put_file (auto_mkdir : bool) (m : fs) (p : path) (v : list Byte.byte)
  (start : option Z) : fs + errno :=
  match (if auto_mkdir then mkdir_parents m (removelast p) else inl m) with
  | inr e => inr e
  | inl m1 => match start with
              | Some s => write_range m1 p v s
              | None => write_bytes m1 p v
              end
  end.

(** [LocalStore.set_async]: only [byte_range[0]] is used. *)
Definition set_async (auto_mkdir : bool) (m : fs) (key : path) (value : list Byte.byte)
  (byte_range : option (Z * Z)) : fs + errno :=
  match byte_range with
  | Some (s, _) => put_file auto_mkdir m key value (Some s)
  | None => put_file auto_mkdir m key value None
  end.

End LocalStoreWrite.

(** ** [StorePath] joining *)

Module StorePathJoin.

(** [s.rstrip("/")]. *)
Fixpoint rstrip_slash (s : string) : string :=
  match s with
  | EmptyString => EmptyString
  | String c s' =>
      match rstrip_slash s' with
      | EmptyString => if Ascii.eqb c (Ascii.ascii_of_nat 47) (* "/" *) then EmptyString else String c EmptyString
      | r => String c r
      end
  end.

(** [_dereference_path(root, path)]. *)
Definition dereference_path (root path : string) : string :=
  let path := if String.eqb root "" then path else (root ++ "/" ++ path)%string in
  rstrip_slash path.

(** [StorePath.__truediv__]: the joined path of the new [StorePath]. *)
Definition truediv (sp_path other : string) : string := dereference_path sp_path other.

End StorePathJoin.

(** ** Data types and Python values shared by the modules below *)

(** [zarrita.metadata.DataType]: the supported element types. *)
Inductive DataType :=
| bool_
| int8 | int16 | int32 | int64
| uint8 | uint16 | uint32 | uint64
| float32 | float64.

Definition DataType_eq_dec (a b : DataType) : {a = b} + {a <> b}.
Proof. decide equality. Defined.

(** Bytes per element ([np.dtype(...).itemsize]). *)
Definition itemsize (d : DataType) : Z :=
  match d with
  | bool_ | int8 | uint8 => 1
  | int16 | uint16 => 2
  | int32 | uint32 | float32 => 4
  | int64 | uint64 | float64 => 8
  end.

(** The Python values that can be passed as [fill_value] or stored in
    [attributes]. A float is represented by its rational value ([-0.0]
    is the rational 0). [PObject] is any other object, such as the NumPy
    scalar [np.int64(1)]: [json.dumps] cannot encode it and
    [_json_convert] rejects it; [truth] is its [bool(...)]. *)
#[warnings="-register-all"]
Inductive pyval :=
| PNone
| PBool (b : bool)
| PInt (z : Z)
| PFloat (q : Q)
| PStr (s : string)
| PList (l : list pyval)
| PObject (truth : bool).

(** Python truthiness ([bool(v)]). *)
Definition truthy (v : pyval) : bool :=
  match v with
  | PNone => false
  | PBool b => b
  | PInt z => negb (z =? 0)
  | PFloat q => negb (Qeq_bool q 0)
  | PStr s => negb (String.eqb s ""%string)
  | PList l => match l with [] => false | _ => true end
  | PObject b => b
  end.

(** [json.dumps(..., default=_json_convert)] encodes the value without
    raising [TypeError]. *)
Fixpoint json_ok (v : pyval) : bool :=
  match v with
  | PObject _ => false
  | PList l =>
      (fix go (l : list pyval) : bool :=
         match l with [] => true | x :: l' => json_ok x && go l' end) l
  | _ => true
  end.

(** [a or b]. *)
Definition py_or (a b : pyval) : pyval := if truthy a then a else b.

(** ** Metadata and [Array.create_async] *)
Module Meta.

(** Codec descriptors, by the domain kind that §4.4 of the design
    assigns them ([zarrita/codecs.py] is not part of this source). *)
Inductive codec :=
| ArrayToArray (name : string)
| ArrayToBytes (name : string)
| BytesToBytes (name : string)
| Sharding.

(** [endian_codec()], the default codec list entry. *)
Definition endian_codec : codec := ArrayToBytes "endian".

Definition is_a2a (c : codec) : bool :=
  match c with ArrayToArray _ => true | _ => false end.
Definition is_b2b (c : codec) : bool :=
  match c with BytesToBytes _ => true | _ => false end.

(** Modelled from the spec: [CodecPipeline.from_metadata] (in
    [zarrita/codecs.py]) validates that a sharding codec is alone, and
    otherwise that the chain is array-to-array codecs, exactly one
    array-to-bytes codec, then bytes-to-bytes codecs. *)
Definition pipeline_ok (cs : list codec) : bool :=
  match cs with
  | [Sharding] => true
  | _ =>
      let fix go (l : list codec) : bool :=
        match l with
        | ArrayToArray _ :: l' => go l'
        | ArrayToBytes _ :: l' => forallb is_b2b l'
        | _ => false
        end in
      go cs
  end.

Inductive chunk_key_encoding :=
| DefaultEncoding (separator : string)
| V2Encoding (separator : string).

(** [ArrayMetadata] (the fields [array.py] sets). *)
Record ArrayMetadata := mkMeta {
  md_shape : list nat;
  md_data_type : DataType;
  md_chunk_shape : list nat;
  md_chunk_key_encoding : chunk_key_encoding;
  md_fill_value : pyval;
  md_codecs : list codec;
  md_dimension_names : option (list string);
  md_attributes : list (string * pyval);
}.

(** Store keys: [zarr.json] ([inl tt]) and the chunk keys, named by
    their chunk coordinates ([inr c]); both key encodings of the
    design are injective and never produce "zarr.json". *)
Abbreviation key := (unit + list nat)%type.
Definition ZARR_JSON : key := inl tt.

(** A stored object: the metadata document or an encoded chunk. *)
Inductive obj :=
| ODoc (md : ArrayMetadata)
| OBlob (b : list Byte.byte).

Abbreviation store := (gmap key obj).

Inductive create_error :=
| AssertionError (msg : string)
| PipelineContractError
| TypeError.

(** [Array._validate_metadata]; [Some msg] is a failed assertion. *)
Definition validate_metadata (md : ArrayMetadata) : option string :=
  if negb (length (md_shape md) =? length (md_chunk_shape md))%nat then
    Some "`chunk_shape` and `shape` need to have the same number of dimensions."
  else if match md_dimension_names md with
          | None => false
          | Some dn => negb (length (md_shape md) =? length dn)%nat
          end then
    Some "`dimension_names` and `shape` need to have the same number of dimensions."
  else match md_fill_value md with
       | PNone => Some "`fill_value` is required."
       | _ => None
       end.

(** The keyword arguments of [Array.create_async]. *)
Record create_args := mkArgs {
  a_shape : list nat;
  a_dtype : DataType;
  a_chunk_shape : list nat;
  a_fill_value : pyval;
  a_chunk_key_encoding : chunk_key_encoding;
  a_codecs : option (list codec);
  a_dimension_names : option (list string);
  a_attributes : option (list (string * pyval));
  a_exists_ok : bool;
}.

(** The [ArrayMetadata(...)] built by [create_async]. *)
Definition build_metadata (a : create_args) : ArrayMetadata :=
  {| md_shape := a_shape a;
     md_data_type := a_dtype a;
     md_chunk_shape := a_chunk_shape a;
     md_chunk_key_encoding := a_chunk_key_encoding a;
     md_fill_value := py_or (a_fill_value a) (PInt 0);
     md_codecs := match a_codecs a with
                  | Some cs => cs
                  | None => [endian_codec]
                  end;
     md_dimension_names := match a_dimension_names a with
                           | Some (_ :: _ as dn) => Some dn
                           | _ => None
                           end;
     md_attributes := match a_attributes a with
                      | Some attrs => attrs
                      | None => []
                      end |}.

(** [json.dumps(asdict(metadata), default=_json_convert)] succeeds: the
    fill value and the attribute values are JSON values (the other
    fields are numbers, strings, [DataType]s and codec records). *)
Definition metadata_json_ok (md : ArrayMetadata) : bool :=
  json_ok (md_fill_value md) && forallb (fun kv => json_ok kv.2) (md_attributes md).

(** [_save_metadata]: validate, serialise with [json.dumps] (which
    raises [TypeError] on a value it cannot encode), then [set] the
    document. *)
Definition save_metadata (st : store) (md : ArrayMetadata)
  : store * option create_error :=
  match validate_metadata md with
  | Some msg => (st, Some (AssertionError msg))
  | None =>
      if metadata_json_ok md then (<[ZARR_JSON := ODoc md]> st, None)
      else (st, Some TypeError)
  end.

(** [Array.create_async]: the existence assertion, the construction of
    the metadata and of the codec pipeline, then [_save_metadata]. The
    result is the new store and the created array's metadata or the
    raised error. *)
Definition create_async (st : store) (a : create_args)
  : store * (ArrayMetadata + create_error) :=
  if negb (a_exists_ok a) && bool_decide (is_Some (st !! ZARR_JSON)) then
    (st, inr (AssertionError ""))
  else
    let md := build_metadata a in
    if negb (pipeline_ok (md_codecs md)) then (st, inr PipelineContractError)
    else
      match save_metadata st md with
      | (st', Some e) => (st', inr e)
      | (st', None) => (st', inl md)
      end.

End Meta.

(** ** The dtype and shape fix-up of [Array._decode_chunk] *)
Module Decode.

(** A C-contiguous numpy array as its shape, dtype and raw bytes. *)
Record ndarray := mkNd {
  nd_shape : list nat;
  nd_dtype : DataType;
  nd_bytes : list Byte.byte;
}.

Inductive np_error := ValueError.

Definition prod (l : list nat) : nat := fold_right Nat.mul 1%nat l.

(** [a.view(dt)] on a C-contiguous array: same bytes, new dtype; when
    the item size changes the last axis is rescaled, which numpy
    refuses for a 0-d array or when the last axis' byte length is not a
    multiple of the new item size. *)
Definition view (a : ndarray) (dt : DataType) : ndarray + np_error :=
  let old := itemsize (nd_dtype a) in
  let new := itemsize dt in
  if old =? new then inl (mkNd (nd_shape a) dt (nd_bytes a))
  else
    match rev (nd_shape a) with
    | [] => inr ValueError
    | last :: init =>
        let lb := Z.of_nat last * old in
        if lb mod new =? 0
        then inl (mkNd (rev init ++ [Z.to_nat (lb / new)]) dt (nd_bytes a))
        else inr ValueError
    end.

(** [a.reshape(shape)]: the element count must be preserved. *)
Definition reshape (a : ndarray) (sh : list nat) : ndarray + np_error :=
  if (prod (nd_shape a) =? prod sh)%nat
  then inl (mkNd sh (nd_dtype a) (nd_bytes a))
  else inr ValueError.

(** The tail of [Array._decode_chunk], applied to the array returned by
    [codec_pipeline.decode]: compare dtype names, [view] on a mismatch,
    then compare shapes and [reshape] on a mismatch. [DataType] names
    and numpy dtype names coincide, so comparing names is comparing
    [DataType]s. *)
Definition decode_fixup (data_type : DataType) (chunk_shape : list nat)
  (chunk_array : ndarray) : ndarray + np_error :=
  let r1 :=
    if DataType_eq_dec (nd_dtype chunk_array) data_type
    then inl chunk_array
    else view chunk_array data_type in
  match r1 with
  | inr e => inr e
  | inl a1 =>
      if decide (nd_shape a1 = chunk_shape)
      then inl a1
      else reshape a1 chunk_shape
  end.

End Decode.

(** ** Value normalisation at the start of [Array._set_async] *)
Module Normalize.

(** A numpy array with its elements as bit patterns in row-major
    order. *)
Record nparray := mkArr {
  arr_shape : list nat;
  arr_dtype : DataType;
  arr_data : list Z;
}.

(** The [value] argument of [__setitem__]: a scalar ([np.isscalar]), a
    nested Python list of numbers (no [.shape]) given by its shape and
    its row-major elements, or an array. *)
Inductive value :=
| VScalar (x : Z)
| VList (shape : list nat) (xs : list Z)
| VArray (a : nparray).

Section Norm.
(** numpy's element conversions, which belong to the numeric-array
    library: [astype_elem src dst] converts one element with
    [astype], [from_py dt] converts a Python number with
    [np.asarray(_, dt)]. *)
Variable astype_elem : DataType -> DataType -> Z -> Z.
Variable from_py : DataType -> Z -> Z.

Definition astype (a : nparray) (dt : DataType) : nparray :=
  mkArr (arr_shape a) dt (map (astype_elem (arr_dtype a) dt) (arr_data a)).

(** Lines 396-405 of [_set_async] for an array of dtype [dtype] and a
    selection of shape [sel_shape]; [None] is the failed
    [assert value.shape == sel_shape]. *)
Definition normalize_value (dtype : DataType) (sel_shape : list nat)
  (v : value) : option value :=
  match v with
  | VScalar x => Some (VScalar x)
  | _ =>
      let a := match v with
               | VList sh xs => mkArr sh dtype (map (from_py dtype) xs)
               | VArray a => a
               | VScalar x => mkArr [] dtype [x]
               end in
      if decide (arr_shape a = sel_shape) then
        if DataType_eq_dec (arr_dtype a) dtype
        then Some (VArray a)
        else Some (VArray (astype a dtype))
      else None
  end.

(** The normalisation the design prescribes (§4.6 step 1 and its
    open question (a)): same item size, reinterpret the bytes (the bit
    patterns are kept); different item size, cast. *)
Definition spec_normalize_value (dtype : DataType) (sel_shape : list nat)
  (v : value) : option value :=
  match v with
  | VScalar x => Some (VScalar x)
  | _ =>
      let a := match v with
               | VList sh xs => mkArr sh dtype (map (from_py dtype) xs)
               | VArray a => a
               | VScalar x => mkArr [] dtype [x]
               end in
      if decide (arr_shape a = sel_shape) then
        if DataType_eq_dec (arr_dtype a) dtype
        then Some (VArray a)
        else if itemsize (arr_dtype a) =? itemsize dtype
        then Some (VArray (mkArr (arr_shape a) dtype (arr_data a)))
        else Some (VArray (astype a dtype))
      else None
  end.
End Norm.

(** numpy's conversions between the boolean and integer types on bit
    patterns: read the source pattern as a number (a boolean is 1 when
    nonzero, signed types in two's complement), then store it in the
    target type (nonzero is [True]; integers wrap modulo [2^w]).
    Floating types are not covered by this instance; it leaves their
    patterns as they are. *)
Definition is_signed (d : DataType) : bool :=
  match d with int8 | int16 | int32 | int64 => true | _ => false end.
Definition is_float (d : DataType) : bool :=
  match d with float32 | float64 => true | _ => false end.

Definition to_num (d : DataType) (x : Z) : Z :=
  let w := 8 * itemsize d in
  match d with
  | bool_ => if x =? 0 then 0 else 1
  | _ => if is_signed d && (2 ^ (w - 1) <=? x) then x - 2 ^ w else x
  end.

Definition from_num (d : DataType) (n : Z) : Z :=
  match d with
  | bool_ => if n =? 0 then 0 else 1
  | _ => n mod 2 ^ (8 * itemsize d)
  end.

Definition np_astype_int (src dst : DataType) (x : Z) : Z :=
  if is_float src || is_float dst then x else from_num dst (to_num src x).

Definition np_from_py_int (dst : DataType) (n : Z) : Z :=
  if is_float dst then n else from_num dst n.

End Normalize.

(** ** The array engine: chunked read and write *)
Module Engine.

(** Chunk coordinates and array indices, one entry per dimension. *)
Abbreviation coord := (list nat).
(** A step-1 slice [start:stop] of one axis. *)
Abbreviation slice := (nat * nat)%type.

(** Row-major enumeration of a product of ranges. *)
Fixpoint cartesian {A : Type} (rs : list (list A)) : list (list A) :=
  match rs with
  | [] => [[]]
  | r :: rs' => flat_map (fun x => map (cons x) (cartesian rs')) r
  end.

(** Membership of an index in a box of slices. *)
Fixpoint in_box (box : list slice) (i : coord) : bool :=
  match box, i with
  | [], [] => true
  | (lo, hi) :: box', x :: i' => (lo <=? x)%nat && (x <? hi)%nat && in_box box' i'
  | _, _ => false
  end.

Definition full_box (sh : list nat) : list slice := map (fun n => (0%nat, n)) sh.
Definition in_shape (sh : list nat) (i : coord) : bool := in_box (full_box sh) i.
(** All indices of an array of shape [sh]. *)
Definition cells (sh : list nat) : list coord := cartesian (map (seq 0) sh).

Definition box_lo (box : list slice) : coord := map fst box.
Definition vadd (x y : coord) : coord := zip_with Nat.add x y.
Definition vsub (x y : coord) : coord := zip_with Nat.sub x y.

(** Modelled from the spec: [BasicIndexer] and [is_total_slice] (in
    [zarrita/indexing.py]), as §4.3 describes them. Along one axis a
    slice [a:b] over chunks of length [n] meets the chunks [a / n] up to
    [ceil(b / n)]; in chunk [k] it covers the cells
    [max a (k n) .. min b (k n + n)]. *)
Definition ceildiv (b n : nat) : nat := ((b + n - 1) / n)%nat.

Definition dim_chunks (a b n : nat) : list nat :=
  seq (a / n) (ceildiv b n - a / n).

Definition dim_chunk_sel (a b n k : nat) : slice :=
  (Nat.max a (k * n) - k * n, Nat.min b (k * n + n) - k * n)%nat.

Definition dim_out_sel (a b n k : nat) : slice :=
  (Nat.max a (k * n) - a, Nat.min b (k * n + n) - a)%nat.

Fixpoint chunk_selection (sel : list slice) (cs : list nat) (c : coord)
  : list slice :=
  match sel, cs, c with
  | (a, b) :: sel', n :: cs', k :: c' =>
      dim_chunk_sel a b n k :: chunk_selection sel' cs' c'
  | _, _, _ => []
  end.

Fixpoint out_selection (sel : list slice) (cs : list nat) (c : coord)
  : list slice :=
  match sel, cs, c with
  | (a, b) :: sel', n :: cs', k :: c' =>
      dim_out_sel a b n k :: out_selection sel' cs' c'
  | _, _, _ => []
  end.

Definition sel_chunks (sel : list slice) (cs : list nat) : list coord :=
  cartesian (zip_with (fun s n => dim_chunks (fst s) (snd s) n) sel cs).

(** The triples [(chunk_coords, chunk_selection, out_selection)]. *)
Definition indexer (sel : list slice) (cs : list nat)
  : list (coord * list slice * list slice) :=
  map (fun c => (c, chunk_selection sel cs c, out_selection sel cs c))
    (sel_chunks sel cs).

(** [indexer.shape]. *)
Definition sel_shape (sel : list slice) : list nat :=
  map (fun s => snd s - fst s)%nat sel.

(** A selection the indexer accepts: one in-bounds slice per axis (an
    out-of-bounds or rank-mismatched selection is an argument error). *)
Fixpoint valid_selection (shape : list nat) (sel : list slice) : bool :=
  match shape, sel with
  | [], [] => true
  | n :: shape', (a, b) :: sel' => (a <=? b)%nat && (b <=? n)%nat && valid_selection shape' sel'
  | _, _ => false
  end.

Fixpoint is_total_slice (csel : list slice) (cs : list nat) : bool :=
  match csel, cs with
  | [], [] => true
  | (a, b) :: csel', n :: cs' => (a =? 0)%nat && (b =? n)%nat && is_total_slice csel' cs'
  | _, _ => false
  end.

(** An n-dimensional numpy array: its shape and its elements. *)
Record ndarray (V : Type) := mkNd { nd_shape : list nat; nd_get : coord -> V }.
Arguments mkNd {V}.
Arguments nd_shape {V}.
Arguments nd_get {V}.

(** The [value] of [__setitem__]: a scalar or an array (already of the
    array's dtype, see [Normalize]). *)
Inductive wvalue (V : Type) :=
| WScalar (x : V)
| WArray (a : ndarray V).
Arguments WScalar {V}.
Arguments WArray {V}.

Section Array.
(** Elements of the array's dtype, compared with [==]. *)
Variable V : Type.
Context `{EqDecision V}.
(** The element [np.zeros] allocates. *)
Variable zero : V.
(** The array's metadata: shape, chunk shape, fill value, and whether
    the codec pipeline is a lone sharding codec. *)
Variable shape chunk_shape : list nat.
Variable fill_value : V.
Variable sharded : bool.
(** The codec pipeline: [encode] a chunk ([chunk_shape] elements) to
    bytes, [decode] bytes to a chunk of [chunk_shape] and the array's
    dtype (the fix-up of [_decode_chunk] included); [None] is a
    malformed chunk. Chunk keys are named by their coordinates. *)
Variable B : Type.
Variable encode : (coord -> V) -> B.
Variable decode : B -> option (coord -> V).

(** [np.all(chunk_array == fill_value)] over the whole chunk. *)
Definition all_fill (chunk_array : coord -> V) : bool :=
  forallb (fun j => bool_decide (chunk_array j = fill_value)) (cells chunk_shape).

(** [out[out_selection] = src] with [src] indexed from 0. *)
Definition assign (out : coord -> V) (osel : list slice) (src : coord -> V)
  : coord -> V :=
  fun i => if in_box osel i then src (vsub i (box_lo osel)) else out i.

(** [a[sel]] indexed from 0. *)
Definition subarray (a : coord -> V) (sel : list slice) : coord -> V :=
  fun j => a (vadd (box_lo sel) j).

(** [_decode_chunk] on the chunk's [FileValueHandle]: outer [None] is a
    decoding error, [Some None] an absent key. *)
Definition decode_chunk (st : gmap coord B) (c : coord)
  : option (option (coord -> V)) :=
  match st !! c with
  | None => Some None
  | Some b => match decode b with
              | Some a => Some (Some a)
              | None => None
              end
  end.

(** Modelled from the spec: [ShardingCodec.decode_partial] followed by
    [toarray()] (in [zarrita/sharding.py]), at the level of the
    shard's content: the [chunk_selection] region of the shard, all
    fill for an absent shard (§7). A shard whose content does not decode
    as a whole is [None] here, although §4.5 reads only the index and
    the sub-chunks the selection meets; the two agree on shards that
    decode. *)
Definition sharding_decode_partial (st : gmap coord B) (c : coord)
  (csel : list slice) : option (option (coord -> V)) :=
  match st !! c with
  | None => Some (Some (fun _ => fill_value))
  | Some b => match decode b with
              | Some a => Some (Some (subarray a csel))
              | None => None
              end
  end.

(** Modelled from the spec: [ShardingCodec.encode_partial] (§4.5 and
    §4.6 step 3) at the level of the shard's content: overlay the value
    on the existing content (all fill when absent); a shard left all
    fill is deleted, any other is rewritten. A shard whose content does
    not decode as a whole is [None] here, although §4.5 decodes only the
    partly covered sub-chunks; the two agree on shards that decode. *)
Definition sharding_encode_partial (st : gmap coord B) (c : coord)
  (v : coord -> V) (csel : list slice) : option (gmap coord B) :=
  let base := match st !! c with
              | None => Some (fun _ => fill_value)
              | Some b => decode b
              end in
  match base with
  | None => None
  | Some a =>
      let a' := fun j => if in_box csel j then v (vsub j (box_lo csel)) else a j in
      Some (if all_fill a' then delete c st else <[c := encode a']> st)
  end.

(** [Array._read_chunk]; [None] is a raised error. *)
Definition read_chunk (st : gmap coord B)
  (t : coord * list slice * list slice) (out : coord -> V)
  : option (coord -> V) :=
  let '(c, csel, osel) := t in
  if sharded then
    match sharding_decode_partial st c csel with
    | None => None
    | Some (Some chunk_array) => Some (assign out osel chunk_array)
    | Some None => Some (assign out osel (fun _ => fill_value))
    end
  else
    match decode_chunk st c with
    | None => None
    | Some (Some chunk_array) => Some (assign out osel (subarray chunk_array csel))
    | Some None => Some (assign out osel (fun _ => fill_value))
    end.

(** [concurrent_map(..., self._read_chunk)]: the per-chunk tasks touch
    disjoint regions of [out]; they run here in indexer order. *)
Fixpoint read_all (st : gmap coord B)
  (ts : list (coord * list slice * list slice)) (out : coord -> V)
  : option (coord -> V) :=
  match ts with
  | [] => Some out
  | t :: ts' => match read_chunk st t out with
                | None => None
                | Some out' => read_all st ts' out'
                end
  end.

(** [Array._get_async]: allocate [np.zeros(indexer.shape)] and read
    every chunk into it. For a rank-0 selection [out[()]] is the one
    element of the 0-d result. *)
Definition get_async (st : gmap coord B) (sel : list slice)
  : option (ndarray V) :=
  if valid_selection shape sel then
    match read_all st (indexer sel chunk_shape) (fun _ => zero) with
    | Some out => Some (mkNd (sel_shape sel) out)
    | None => None
    end
  else None.

(** [Array._write_chunk_to_store]: delete the key of an all-fill
    chunk, otherwise store the encoded chunk. *)
Definition write_chunk_to_store (st : gmap coord B) (c : coord)
  (chunk_array : coord -> V) : gmap coord B :=
  if all_fill chunk_array then delete c st
  else <[c := encode chunk_array]> st.

(** [value[out_selection]]; indexing a scalar raises. *)
Definition value_sub (v : wvalue V) (osel : list slice) : option (coord -> V) :=
  match v with
  | WScalar _ => None
  | WArray a => Some (subarray (nd_get a) osel)
  end.

(** [Array._write_chunk]; [None] is a raised error (the store is then
    unchanged for this chunk). *)
Definition write_chunk (st : gmap coord B) (v : wvalue V)
  (t : coord * list slice * list slice) : option (gmap coord B) :=
  let '(c, csel, osel) := t in
  if is_total_slice csel chunk_shape then
    let chunk_array := match v with
                       | WScalar x => fun _ => x
                       | WArray a => subarray (nd_get a) osel
                       end in
    Some (write_chunk_to_store st c chunk_array)
  else if sharded then
    match value_sub v osel with
    | None => None
    | Some sub => sharding_encode_partial st c sub csel
    end
  else
    match decode_chunk st c with
    | None => None
    | Some tmp =>
        let base := match tmp with
                    | None => fun _ => fill_value
                    | Some a => a
                    end in
        match value_sub v osel with
        | None => None
        | Some sub =>
            let chunk_array :=
              fun j => if in_box csel j then sub (vsub j (box_lo csel)) else base j in
            Some (write_chunk_to_store st c chunk_array)
        end
    end.

(** [concurrent_map(..., self._write_chunk)] in indexer order; a
    failing chunk stops the batch, the chunks written before it stay
    written. The flag tells whether the write completed. *)
Fixpoint write_all (st : gmap coord B) (v : wvalue V)
  (ts : list (coord * list slice * list slice)) : gmap coord B * bool :=
  match ts with
  | [] => (st, true)
  | t :: ts' => match write_chunk st v t with
                | None => (st, false)
                | Some st' => write_all st' v ts'
                end
  end.

(** [Array._set_async] after the dtype normalisation: the value's
    shape is asserted to be the selection's shape. *)
Definition set_async (st : gmap coord B) (sel : list slice) (v : wvalue V)
  : gmap coord B * bool :=
  if valid_selection shape sel then
    match v with
    | WArray a =>
        if decide (nd_shape a = sel_shape sel)
        then write_all st v (indexer sel chunk_shape)
        else (st, false)
    | WScalar _ => write_all st v (indexer sel chunk_shape)
    end
  else (st, false).

(** A sequence of writes, each applied to the store the previous one
    left. *)
Fixpoint set_many (st : gmap coord B) (ws : list (list slice * wvalue V))
  : gmap coord B :=
  match ws with
  | [] => st
  | (sel, v) :: ws' => set_many (fst (set_async st sel v)) ws'
  end.

(** The logical content of chunk [c]: all fill when its key is
    absent, the decoded chunk otherwise ([None] when malformed). *)
Definition content (st : gmap coord B) (c : coord) : option (coord -> V) :=
  match st !! c with
  | None => Some (fun _ => fill_value)
  | Some b => decode b
  end.

(** Fill-value elision: no stored chunk decodes to all fill. *)
Definition no_fill_chunk (st : gmap coord B) : Prop :=
  forall c b a, st !! c = Some b -> decode b = Some a -> all_fill a = false.

(** Every stored chunk decodes. *)
Definition decodable (st : gmap coord B) : Prop :=
  forall c b, st !! c = Some b -> is_Some (decode b).

End Array.

(** The chunk holding index [i] of a selection's output, and the
    position of that element inside the chunk. *)
Fixpoint chunk_of (sel : list slice) (cs : list nat) (i : coord) : coord :=
  match sel, cs, i with
  | (a, _) :: sel', n :: cs', x :: i' => ((a + x) / n)%nat :: chunk_of sel' cs' i'
  | _, _, _ => []
  end.

Fixpoint offset_of (sel : list slice) (cs : list nat) (i : coord) : coord :=
  match sel, cs, i with
  | (a, _) :: sel', n :: cs', x :: i' => ((a + x) mod n)%nat :: offset_of sel' cs' i'
  | _, _, _ => []
  end.

(** numpy's [(x == y).all()] for arrays of the same shape. *)
Definition nd_equal {V : Type} (x y : ndarray V) : Prop :=
  nd_shape x = nd_shape y
  /\ forall i, in_shape (nd_shape x) i = true -> nd_get x i = nd_get y i.

End Engine.

(** ** [Array.resize_async] *)
Module Resize.
Import Meta.

(** Modelled from the spec: [all_chunk_coords] (in
    [zarrita/indexing.py]): the regular chunk grid of a shape, with
    [ceil(shape[i] / chunk_shape[i])] chunks along axis [i], row-major. *)
Definition all_chunk_coords (shape chunk_shape : list nat) : list Engine.coord :=
  Engine.cartesian
    (zip_with (fun n c => seq 0 (Engine.ceildiv n c)) shape chunk_shape).

(** [attr.evolve(self.metadata, shape=new_shape)]. *)
Definition with_shape (md : ArrayMetadata) (new_shape : list nat) : ArrayMetadata :=
  {| md_shape := new_shape;
     md_data_type := md_data_type md;
     md_chunk_shape := md_chunk_shape md;
     md_chunk_key_encoding := md_chunk_key_encoding md;
     md_fill_value := md_fill_value md;
     md_codecs := md_codecs md;
     md_dimension_names := md_dimension_names md;
     md_attributes := md_attributes md |}.

(** The rank assertion of [resize_async], then the chunks it deletes,
    [old_chunk_coords.difference(new_chunk_coords)], and the new
    metadata. *)
Definition resize_ops (md : ArrayMetadata) (new_shape : list nat)
  : option (list Engine.coord * ArrayMetadata) :=
  if negb (length new_shape =? length (md_shape md))%nat then None
  else
    let new_metadata := with_shape md new_shape in
    let cs := md_chunk_shape md in
    let old_chunk_coords := all_chunk_coords (md_shape md) cs in
    let new_chunk_coords := all_chunk_coords new_shape cs in
    Some (filter (fun c => negb (bool_decide (c ∈ new_chunk_coords))) old_chunk_coords,
          new_metadata).

(** The deletions of [concurrent_map(..., _delete_key)]. *)
Definition delete_chunks (st : store) (gone : list Engine.coord) : store :=
  fold_left (fun st' c => delete (inr c) st') gone st.

(** [Array.resize_async]: the rank assertion (the store unchanged), the
    deletions, then [json.dumps] of the new metadata, which raises
    [TypeError] after the deletions on a value it cannot encode, and
    the write of the document. The result is the new store and the new
    metadata or the raised error. *)
Definition resize_async (st : store) (md : ArrayMetadata) (new_shape : list nat)
  : store * (ArrayMetadata + create_error) :=
  match resize_ops md new_shape with
  | None => (st, inr (AssertionError ""))
  | Some (gone, new_metadata) =>
      let st1 := delete_chunks st gone in
      if metadata_json_ok new_metadata
      then (<[ZARR_JSON := ODoc new_metadata]> st1, inl new_metadata)
      else (st1, inr TypeError)
  end.

(** A chunk lies fully outside [shape] when, along some axis, it starts
    at or beyond the extent. *)
Fixpoint fully_outside (shape chunk_shape : list nat) (c : Engine.coord) : bool :=
  match shape, chunk_shape, c with
  | n :: shape', m :: cs', k :: c' =>
      (n <=? k * m)%nat || fully_outside shape' cs' c'
  | _, _, _ => false
  end.

End Resize.

(** * Proofs *)

Module StoreFacts.
Import LocalStore.

(** Where the requested range is not reversed and a start is given
    (or no end is), [_cat_file] returns the range the store contract
    describes. *)
Lemma cat_contents_ordered (d : list Byte.byte) (start stop : option Z) :
  start <> None \/ stop = None ->
  range_start (Z.of_nat (length d)) start <= range_stop (Z.of_nat (length d)) stop ->
  cat_contents d start stop = inl (spec_subrange d start stop).
Proof.
  intros Hn Hse. unfold cat_contents, spec_subrange, py_read.
  assert (H0 : 0 <= range_start (Z.of_nat (length d)) start).
  { unfold range_start. destruct start as [s0|]; [|lia].
    destruct (Z.leb_spec 0 s0); lia. }
  destruct start as [s0|], stop as [e0|]; cbn [range_start range_stop] in *.
  - set (p := if 0 <=? s0 then s0 else Z.max 0 (Z.of_nat (length d) + s0)) in *.
    set (q := if e0 <? 0 then Z.of_nat (length d) + e0 else e0) in *.
    rewrite (proj2 (Z.eqb_neq (q - p) (-1))) by lia.
    rewrite (proj2 (Z.ltb_ge (q - p) (-1))) by lia. reflexivity.
  - set (p := if 0 <=? s0 then s0 else Z.max 0 (Z.of_nat (length d) + s0)) in *.
    rewrite Z.eqb_refl, firstn_all2; [reflexivity|].
    rewrite length_skipn. lia.
  - destruct Hn as [Hn|Hn]; congruence.
  - rewrite Z.sub_0_r, Nat2Z.id. simpl. rewrite firstn_all. reflexivity.
Qed.

Definition ten_bytes : list Byte.byte :=
  [Byte.x00; Byte.x01; Byte.x02; Byte.x03; Byte.x04;
   Byte.x05; Byte.x06; Byte.x07; Byte.x08; Byte.x09].

(** C7 (code_bug). On a 10-byte object, [get(key, (5, 3))] raises
    [ValueError] (it calls [f.read(-2)]) where the exclusive range
    [5, 3) is empty; and [get(key, (None, 9))] returns no bytes (the
    file is still at its end after [f.seek(0, io.SEEK_END)], and
    [f.read(-1)] reads nothing there) where the range [0, 9) holds nine
    bytes. *)
Theorem get_reversed_range_raises :
  get_async {[ ["a"%string] := NFile ten_bytes ]} ["a"%string] (Some (Some 5, Some 3))
    = inr ValueError
  /\ spec_subrange ten_bytes (Some 5) (Some 3) = []
  /\ get_async {[ ["a"%string] := NFile ten_bytes ]} ["a"%string] (Some (None, Some 9))
    = inl (Some [])
  /\ spec_subrange ten_bytes None (Some 9) = firstn 9 ten_bytes.
Proof. split; [|split; [|split]]; vm_compute; reflexivity. Qed.

(** Deleting [k] does not change how the proper prefixes of [k]
    resolve. *)
Lemma parent_error_delete (m : fs) (k : path) :
  forall rest pre, (length (pre ++ rest) <= length k)%nat ->
  parent_error (delete k m) pre rest = parent_error m pre rest.
Proof.
  induction rest as [|s rest IH]; intros pre Hlen; [reflexivity|].
  destruct rest as [|s' rest']; [reflexivity|].
  change (parent_error (delete k m) pre (s :: s' :: rest'))
    with (match delete k m !! (pre ++ [s]) with
          | Some NDir => parent_error (delete k m) (pre ++ [s]) (s' :: rest')
          | Some (NFile _) => Some NotADirectoryError
          | None => Some FileNotFoundError
          end).
  change (parent_error m pre (s :: s' :: rest'))
    with (match m !! (pre ++ [s]) with
          | Some NDir => parent_error m (pre ++ [s]) (s' :: rest')
          | Some (NFile _) => Some NotADirectoryError
          | None => Some FileNotFoundError
          end).
  assert (Hne : pre ++ [s] <> k).
  { intros <-. rewrite !length_app in Hlen. simpl in Hlen. lia. }
  rewrite lookup_delete_ne by congruence.
  destruct (m !! (pre ++ [s])) as [[|]|]; try reflexivity.
  apply IH. rewrite <- app_assoc. exact Hlen.
Qed.

(** A second [delete] of the same key leaves the store as the first
    one left it. *)
Lemma delete_twice (m : fs) (k : path) :
  fst (delete_async (fst (delete_async m k)) k) = fst (delete_async m k).
Proof.
  unfold delete_async, resolve.
  destruct (parent_error m [] k) as [e|] eqn:Hp.
  - destruct e; simpl; rewrite ?Hp; reflexivity.
  - destruct (m !! k) as [[d|]|] eqn:Hk; simpl; rewrite ?Hp, ?Hk; try reflexivity.
    simpl. rewrite parent_error_delete by (simpl; lia).
    rewrite Hp, lookup_delete_eq. reflexivity.
Qed.

(** C8 (code_bug). Under a store holding the file [c], the key [c/0]
    does not exist, yet deleting it raises [NotADirectoryError]
    ([unlink(missing_ok=True)] swallows only [FileNotFoundError]). *)
Theorem delete_missing_key_under_file_raises :
  exists_async {[ ["c"%string] := NFile [] ]} ["c"; "0"]%string = false
  /\ delete_async {[ ["c"%string] := NFile [] ]} ["c"; "0"]%string
     = ({[ ["c"%string] := NFile [] ]}, Some NotADirectoryError).
Proof. split; vm_compute; reflexivity. Qed.

End StoreFacts.

Module StoreWriteFacts.
Import LocalStore LocalStoreWrite.

Lemma length_removelast (p : path) : length (removelast p) = pred (length p).
Proof. rewrite removelast_firstn_len, length_firstn. lia. Qed.

Lemma parent_error_step (m : fs) pre s s' rest :
  parent_error m pre (s :: s' :: rest) =
  match m !! (pre ++ [s]) with
  | Some NDir => parent_error m (pre ++ [s]) (s' :: rest)
  | Some (NFile _) => Some NotADirectoryError
  | None => Some FileNotFoundError
  end.
Proof. reflexivity. Qed.

(** [parent_error] only reads the entries of the proper prefixes. *)
Lemma parent_error_agree (m m' : fs) :
  forall rest pre,
  (forall q, (length q < length (pre ++ rest))%nat -> m' !! q = m !! q) ->
  parent_error m' pre rest = parent_error m pre rest.
Proof.
  induction rest as [|s rest IH]; intros pre Hq; [reflexivity|].
  destruct rest as [|s' rest']; [reflexivity|].
  rewrite !parent_error_step.
  rewrite Hq by (rewrite !length_app; simpl; lia).
  destruct (m !! (pre ++ [s])) as [[|]|]; try reflexivity.
  apply IH. intros q Hl. apply Hq. rewrite <- app_assoc in Hl. exact Hl.
Qed.

Lemma parent_error_none_iff (m : fs) :
  forall rest pre, parent_error m pre rest = None <->
  (forall i, (0 < i < length rest)%nat -> m !! (pre ++ firstn i rest) = Some NDir).
Proof.
  induction rest as [|s rest IH]; intros pre.
  - split; [intros _ i Hi; simpl in Hi; lia | reflexivity].
  - destruct rest as [|s' rest'].
    + split; [intros _ i Hi; simpl in Hi; lia | reflexivity].
    + rewrite parent_error_step. split.
      * intros H i Hi.
        destruct (m !! (pre ++ [s])) as [[|]|] eqn:E; try discriminate.
        destruct i as [|[|j]]; [lia| exact E |].
        change (firstn (S (S j)) (s :: s' :: rest')) with (s :: firstn (S j) (s' :: rest')).
        replace (pre ++ s :: firstn (S j) (s' :: rest'))
          with ((pre ++ [s]) ++ firstn (S j) (s' :: rest')) by (rewrite <- app_assoc; reflexivity).
        apply (proj1 (IH (pre ++ [s])) H). simpl in Hi |- *. lia.
      * intros H.
        pose proof (H 1%nat ltac:(simpl; lia)) as H1. cbn [firstn] in H1.
        rewrite H1.
        apply IH. intros i Hi.
        rewrite <- app_assoc.
        destruct i as [|j]; [lia|].
        apply (H (S (S j))). simpl in Hi |- *. lia.
Qed.

Lemma parent_error_not_isdir (m : fs) :
  forall rest pre, parent_error m pre rest <> Some IsADirectoryError.
Proof.
  induction rest as [|s rest IH]; intros pre; [discriminate|].
  destruct rest as [|s' rest']; [discriminate|].
  rewrite parent_error_step.
  destruct (m !! (pre ++ [s])) as [[|]|]; [discriminate| apply IH | discriminate].
Qed.

Lemma parent_error_notdir (m : fs) :
  forall rest pre, parent_error m pre rest = Some NotADirectoryError ->
  exists i d, (0 < i < length rest)%nat /\ m !! (pre ++ firstn i rest) = Some (NFile d).
Proof.
  induction rest as [|s rest IH]; intros pre H; [discriminate|].
  destruct rest as [|s' rest']; [discriminate|].
  rewrite parent_error_step in H.
  destruct (m !! (pre ++ [s])) as [[d|]|] eqn:E; try discriminate.
  - exists 1%nat, d. split; [simpl; lia| exact E].
  - destruct (IH _ H) as (i & d & Hi & Hd).
    exists (S i), d. split; [simpl in Hi |- *; lia|].
    rewrite <- app_assoc in Hd. exact Hd.
Qed.

(** The proper prefixes of [p] in the [firstn] form. *)
Lemma firstn_prefix_lt (p : path) i : (i < length p)%nat ->
  firstn i p = firstn i (removelast p).
Proof. intros. symmetry. apply firstn_removelast. exact H. Qed.

Lemma firstn_length_le (p : path) i : (length (firstn i p) <= i)%nat.
Proof. rewrite length_firstn. lia. Qed.

Lemma os_mkdir_inl (m m1 : fs) p : os_mkdir m p = inl m1 ->
  p <> [] /\ parent_error m [] p = None /\ m !! p = None /\ m1 = <[p := NDir]> m.
Proof.
  unfold os_mkdir, parent_errno. destruct p as [|x p']; [discriminate|].
  destruct (parent_error m [] (x :: p')) as [[]|]; try discriminate.
  destruct (m !! (x :: p')); [discriminate|]. intros [= <-]. auto.
Qed.

(** The entries [mkdir_p] adds: directories at nonempty prefixes of
    [p] that had no entry. *)
Definition grows (m m1 : fs) (p : path) : Prop :=
  forall q, m1 !! q = m !! q \/
    (m !! q = None /\ m1 !! q = Some NDir /\
     exists i, (0 < i <= length p)%nat /\ q = firstn i p).

Lemma grows_refl m p : grows m m p.
Proof. intros q. left. reflexivity. Qed.

Lemma mkdir_p_frame : forall fuel (m m1 : fs) p,
  mkdir_p fuel m p = inl m1 -> grows m m1 p.
Proof.
  induction fuel as [|n IH]; intros m m1 p H.
  - cbn [mkdir_p] in H.
    destruct (os_mkdir m p) as [m'|e] eqn:E.
    + injection H as <-. apply os_mkdir_inl in E as (Hp & _ & Hn & ->).
      intros q. destruct (decide (q = p)) as [->|Hq].
      * right. rewrite lookup_insert_eq. split; [exact Hn|]. split; [reflexivity|].
        exists (length p). split; [destruct p; [congruence|simpl; lia]|].
        symmetry. apply firstn_all.
      * left. apply lookup_insert_ne. congruence.
    + destruct e; try (destruct (is_dir m p); [injection H as <-; apply grows_refl|discriminate]).
      discriminate.
  - cbn [mkdir_p] in H.
    destruct (os_mkdir m p) as [m'|e] eqn:E.
    + injection H as <-. apply os_mkdir_inl in E as (Hp & _ & Hn & ->).
      intros q. destruct (decide (q = p)) as [->|Hq].
      * right. rewrite lookup_insert_eq. split; [exact Hn|]. split; [reflexivity|].
        exists (length p). split; [destruct p; [congruence|simpl; lia]|].
        symmetry. apply firstn_all.
      * left. apply lookup_insert_ne. congruence.
    + destruct e; try (destruct (is_dir m p); [injection H as <-; apply grows_refl|discriminate]).
      destruct p as [|x p']; [discriminate|].
      destruct (mkdir_p n m (removelast (x :: p'))) as [m2|e] eqn:E2; [|discriminate].
      pose proof (IH _ _ _ E2) as G2.
      assert (Hup : forall m', grows m m' (removelast (x :: p')) -> grows m m' (x :: p')).
      { intros m' G q. destruct (G q) as [Hq|(Hq1 & Hq2 & i & Hi & ->)]; [left; exact Hq|].
        right. split; [exact Hq1|]. split; [exact Hq2|].
        rewrite length_removelast in Hi. exists i. split; [simpl in Hi |- *; lia|].
        apply firstn_removelast. simpl in Hi |- *; lia. }
      destruct (os_mkdir m2 (x :: p')) as [m3|e'] eqn:E3.
      * injection H as <-. apply os_mkdir_inl in E3 as (_ & _ & Hn & ->).
        intros q. destruct (decide (q = x :: p')) as [->|Hq].
        -- right. rewrite lookup_insert_eq.
           destruct (G2 (x :: p')) as [Hq|(_ & Hq2 & _)]; [|congruence].
           split; [congruence|]. split; [reflexivity|].
           exists (length (x :: p')). split; [simpl; lia|]. symmetry. apply firstn_all.
        -- rewrite lookup_insert_ne by congruence. apply (Hup m2 G2 q).
      * destruct e'; try discriminate;
          (destruct (is_dir m2 (x :: p')); [injection H as <-; apply (Hup m2 G2)|discriminate]).
Qed.

Lemma is_dir_of (m : fs) p : parent_error m [] p = None -> m !! p = Some NDir ->
  is_dir m p = true.
Proof. intros Hp Hm. destruct p; [reflexivity|]. unfold is_dir, resolve. rewrite Hp, Hm. reflexivity. Qed.

(** [mkdir_p] succeeds when no nonempty prefix of [p] is a file, and
    then every nonempty prefix of [p] is a directory. *)
Lemma mkdir_p_ok : forall fuel (m : fs) p, length p = fuel ->
  (forall i d, (0 < i <= length p)%nat -> m !! firstn i p <> Some (NFile d)) ->
  exists m1, mkdir_p fuel m p = inl m1 /\
    forall i, (0 < i <= length p)%nat -> m1 !! firstn i p = Some NDir.
Proof.
  induction fuel as [|n IH]; intros m p Hl Hf.
  - destruct p; [|discriminate]. exists m. split; [reflexivity|]. intros i Hi. simpl in Hi. lia.
  - destruct p as [|x p']; [discriminate|]. set (p := x :: p') in *.
    assert (Hpre : forall i, (0 < i < length p)%nat -> firstn i p = firstn i (removelast p))
      by (intros; apply firstn_prefix_lt; lia).
    destruct (parent_error m [] p) as [e|] eqn:Pe.
    + destruct e.
      * assert (E : os_mkdir m p = inr ENOENT)
          by (unfold os_mkdir, parent_errno; subst p; rewrite Pe; reflexivity).
        destruct (IH m (removelast p)) as (m2 & E2 & D2).
        { rewrite length_removelast. subst p. simpl in *. lia. }
        { intros i d Hi. rewrite length_removelast in Hi.
          rewrite <- Hpre by lia. apply Hf. lia. }
        pose proof (mkdir_p_frame _ _ _ _ E2) as G2.
        assert (Hp2 : m2 !! p = m !! p).
        { destruct (G2 p) as [H|(_ & _ & i & Hi & Hq)]; [exact H|].
          exfalso. pose proof (firstn_length_le (removelast p) i) as L.
          rewrite <- Hq in L. rewrite length_removelast in Hi.
          subst p. simpl in *. lia. }
        assert (Pe2 : parent_error m2 [] p = None).
        { apply parent_error_none_iff. intros i Hi. simpl.
          rewrite Hpre by lia. apply D2. rewrite length_removelast. lia. }
        assert (D2' : forall i, (0 < i < length p)%nat -> m2 !! firstn i p = Some NDir).
        { intros i Hi. rewrite Hpre by lia. apply D2. rewrite length_removelast. lia. }
        cbn [mkdir_p]. rewrite E. subst p. rewrite E2.
        destruct (m !! (x :: p')) as [[d|]|] eqn:Hm.
        -- exfalso. apply (Hf (length (x :: p')) d); [simpl; lia|]. rewrite firstn_all. exact Hm.
        -- assert (E3 : os_mkdir m2 (x :: p') = inr EEXIST)
             by (unfold os_mkdir, parent_errno; rewrite Pe2, Hp2; try rewrite Hm; reflexivity).
           rewrite E3, (is_dir_of _ _ Pe2 ltac:(rewrite Hp2; try exact Hm; reflexivity)).
           exists m2. split; [reflexivity|]. intros i Hi.
           destruct (Nat.eq_dec i (length (x :: p'))) as [->|Hne].
           ++ rewrite firstn_all. exact Hp2.
           ++ apply D2'. lia.
        -- assert (E3 : os_mkdir m2 (x :: p') = inl (<[x :: p' := NDir]> m2))
             by (unfold os_mkdir, parent_errno; rewrite Pe2, Hp2; try rewrite Hm; reflexivity).
           rewrite E3. eexists. split; [reflexivity|]. intros i Hi.
           destruct (Nat.eq_dec i (length (x :: p'))) as [->|Hne].
           ++ rewrite firstn_all. apply lookup_insert_eq.
           ++ rewrite lookup_insert_ne.
              ** apply D2'. lia.
              ** intros Heq. pose proof (firstn_length_le (x :: p') i) as L.
                 rewrite <- Heq in L. simpl in *. lia.
      * exfalso. exact (parent_error_not_isdir _ _ _ Pe).
      * exfalso. destruct (parent_error_notdir _ _ _ Pe) as (i & d & Hi & Hd).
        apply (Hf i d); [lia|]. exact Hd.
    + assert (D : forall i, (0 < i < length p)%nat -> m !! firstn i p = Some NDir)
        by (intros i Hi; exact (proj1 (parent_error_none_iff m p []) Pe i Hi)).
      destruct (m !! p) as [[d|]|] eqn:Hm.
      * exfalso. apply (Hf (length p) d); [subst p; simpl; lia|]. rewrite firstn_all. exact Hm.
      * assert (E : os_mkdir m p = inr EEXIST)
          by (unfold os_mkdir, parent_errno; subst p; rewrite Pe, Hm; reflexivity).
        exists m. cbn [mkdir_p]. rewrite E, (is_dir_of _ _ Pe Hm). split; [reflexivity|].
        intros i Hi. destruct (Nat.eq_dec i (length p)) as [->|Hne].
        -- rewrite firstn_all. exact Hm.
        -- apply D. lia.
      * assert (E : os_mkdir m p = inl (<[p := NDir]> m))
          by (unfold os_mkdir, parent_errno; subst p; rewrite Pe, Hm; reflexivity).
        cbn [mkdir_p]. rewrite E. eexists. split; [reflexivity|].
        intros i Hi. destruct (Nat.eq_dec i (length p)) as [->|Hne].
        -- rewrite firstn_all. apply lookup_insert_eq.
        -- rewrite lookup_insert_ne.
           ++ apply D. lia.
           ++ intros Heq. pose proof (firstn_length_le p i) as L.
              rewrite <- Heq in L. lia.
Qed.

(** [mkdir_p] on an existing directory changes nothing. *)
Lemma is_dir_mkdir_p (fuel : nat) (m : fs) (p : path) :
  is_dir m p = true -> mkdir_p fuel m p = inl m.
Proof.
  intros Hd.
  assert (E : os_mkdir m p = inr EEXIST).
  { destruct p as [|x p']; [reflexivity|].
    unfold is_dir, resolve in Hd. unfold os_mkdir, parent_errno.
    destruct (parent_error m [] (x :: p')); [discriminate|].
    destruct (m !! (x :: p')) as [[]|]; try discriminate. reflexivity. }
  destruct fuel; cbn [mkdir_p]; rewrite E, Hd; reflexivity.
Qed.

(** The parent of a resolvable path is a directory. *)
Lemma resolve_parent_is_dir (m : fs) k n : resolve m k = inl n ->
  is_dir m (removelast k) = true.
Proof.
  unfold resolve. destruct (parent_error m [] k) eqn:Pe; [discriminate|]. intros _.
  pose proof (proj1 (parent_error_none_iff m k []) Pe) as D.
  destruct (removelast k) as [|y r] eqn:Er; [reflexivity|].
  assert (Hl : length k = S (S (length r))).
  { pose proof (length_removelast k) as L. rewrite Er in L. simpl in L. lia. }
  apply is_dir_of.
  - apply parent_error_none_iff. intros i Hi. simpl. rewrite <- Er.
    simpl in Hi. rewrite firstn_removelast by lia. apply D. lia.
  - rewrite removelast_firstn_len in Er. rewrite <- Er. apply D. lia.
Qed.

Lemma resolve_insert_same (m : fs) k n : parent_error m [] k = None ->
  resolve (<[k := n]> m) k = inl n.
Proof.
  intros Pe. unfold resolve.
  rewrite (parent_error_agree m).
  - rewrite Pe, lookup_insert_eq. reflexivity.
  - intros q Hq. apply lookup_insert_ne. intros ->. simpl in Hq. lia.
Qed.

Lemma put_file_inv (am : bool) (m m' : fs) (k : path) (v : list Byte.byte) (start : option Z) :
  put_file am m k v start = inl m' ->
  exists m1, (if am then mkdir_parents m (removelast k) else inl m) = inl m1 /\
    match start with
    | Some s => write_range m1 k v s
    | None => write_bytes m1 k v
    end = inl m'.
Proof.
  unfold put_file. destruct (if am then _ else _) as [m1|e]; [|discriminate].
  intros H. exists m1. auto.
Qed.

Lemma write_bytes_inv (m m' : fs) k v : write_bytes m k v = inl m' ->
  parent_error m [] k = None /\ m !! k <> Some NDir /\ m' = <[k := NFile v]> m.
Proof.
  unfold write_bytes, parent_errno. destruct k as [|x k']; [discriminate|].
  destruct (parent_error m [] (x :: k')) as [[]|]; try discriminate.
  destruct (m !! (x :: k')) as [[]|] eqn:Hm; try discriminate;
    intros [= <-]; repeat split; congruence.
Qed.

Lemma write_range_inv (m m' : fs) k v s : write_range m k v s = inl m' ->
  exists d, resolve m k = inl (NFile d) /\ 0 <= s /\
    m' = <[k := NFile (write_at d v (Z.to_nat s))]> m.
Proof.
  unfold write_range. destruct k as [|x k']; [discriminate|].
  destruct (resolve m (x :: k')) as [[d|]|[]]; try discriminate.
  destruct (s <? 0) eqn:Hs; [discriminate|]. intros [= <-].
  exists d. split; [reflexivity|]. split; [lia|reflexivity].
Qed.

Lemma resolve_parent (m : fs) k n : resolve m k = inl n -> parent_error m [] k = None.
Proof. unfold resolve. destruct (parent_error m [] k); [discriminate|reflexivity]. Qed.

(** The directories [set_async] creates are proper prefixes of the key. *)
Lemma set_mkdir_grows (am : bool) (m m1 : fs) k :
  (if am then mkdir_parents m (removelast k) else inl m) = inl m1 ->
  forall q, m1 !! q = m !! q \/
    (m !! q = None /\ m1 !! q = Some NDir /\
     exists i, (0 < i < length k)%nat /\ q = firstn i k).
Proof.
  intros H q. destruct am; [|injection H as <-; left; reflexivity].
  destruct (mkdir_p_frame _ _ _ _ H q) as [Hq|(H1 & H2 & i & Hi & ->)]; [left; exact Hq|].
  right. split; [exact H1|]. split; [exact H2|].
  rewrite length_removelast in Hi. exists i. split; [lia|].
  apply firstn_removelast. lia.
Qed.

Lemma set_mkdir_key (am : bool) (m m1 : fs) k :
  (if am then mkdir_parents m (removelast k) else inl m) = inl m1 -> m1 !! k = m !! k.
Proof.
  intros H. destruct (set_mkdir_grows _ _ _ _ H k) as [Hq|(_ & _ & i & Hi & Hq)]; [exact Hq|].
  exfalso. pose proof (firstn_length_le k i) as L. rewrite <- Hq in L. lia.
Qed.

(** ** Properties of the store's writes *)

(** [get_async] returns [None] exactly when the key does not exist or
    names a directory: on a regular file it returns bytes or raises. *)
Theorem get_none_iff (m : fs) k byte_range :
  get_async m k byte_range = inl None <->
  exists_async m k = false \/ resolve m k = inl NDir.
Proof.
  unfold get_async, exists_async, cat_file, open_rb.
  destruct byte_range as [[s e]|];
    destruct (resolve m k) as [[d|]|err];
    try destruct (cat_contents d _ _); split; intros H;
    try discriminate; auto; destruct H; discriminate.
Qed.

(** After a [delete_async] that raises nothing, the key neither exists
    nor reads. *)
Theorem delete_then_absent (m m' : fs) k byte_range :
  delete_async m k = (m', None) ->
  exists_async m' k = false /\ get_async m' k byte_range = inl None.
Proof.
  intros H. unfold delete_async in H.
  destruct (resolve m k) as [[d|]|[]] eqn:R; try discriminate.
  - injection H as <-.
    assert (R' : resolve (delete k m) k = inr FileNotFoundError).
    { unfold resolve. rewrite StoreFacts.parent_error_delete by (simpl; lia).
      rewrite (resolve_parent _ _ _ R), lookup_delete_eq. reflexivity. }
    unfold exists_async, get_async, cat_file, open_rb. rewrite R'.
    destruct byte_range as [[]|]; rewrite ?R'; auto.
  - injection H as <-.
    unfold exists_async, get_async, cat_file, open_rb. rewrite R.
    destruct byte_range as [[]|]; rewrite ?R; auto.
Qed.

(** A [set_async] without byte range that succeeds stores the value:
    the key exists and reads back the bytes written. *)
Theorem set_then_get (am : bool) (m m' : fs) k v :
  set_async am m k v None = inl m' ->
  get_async m' k None = inl (Some v) /\ exists_async m' k = true.
Proof.
  intros H. unfold set_async in H.
  destruct (put_file_inv _ _ _ _ _ _ H) as (m1 & _ & W).
  destruct (write_bytes_inv _ _ _ _ W) as (Pe & _ & ->).
  unfold get_async, exists_async, cat_file, open_rb.
  rewrite (resolve_insert_same _ _ _ Pe). auto.
Qed.

(** A byte-range [set_async] that succeeds started at a nonnegative
    offset [s], and the range [s, s + len v) of the key reads back [v]. *)
Theorem set_range_then_get (am : bool) (m m' : fs) k v s e :
  set_async am m k v (Some (s, e)) = inl m' ->
  0 <= s /\
  get_async m' k (Some (Some s, Some (s + Z.of_nat (length v)))) = inl (Some v).
Proof.
  intros H. unfold set_async in H.
  destruct (put_file_inv _ _ _ _ _ _ H) as (m1 & _ & W).
  destruct (write_range_inv _ _ _ _ _ W) as (d & R & Hs & ->).
  split; [exact Hs|].
  unfold get_async, cat_file, open_rb.
  rewrite (resolve_insert_same _ _ _ (resolve_parent _ _ _ R)).
  unfold cat_contents, py_read.
  rewrite (proj2 (Z.leb_le 0 s) Hs).
  rewrite (proj2 (Z.ltb_ge (s + Z.of_nat (length v)) 0)) by lia.
  rewrite (proj2 (Z.eqb_neq (s + Z.of_nat (length v) - s) (-1))) by lia.
  rewrite (proj2 (Z.ltb_ge (s + Z.of_nat (length v) - s) (-1))) by lia.
  replace (Z.to_nat (s + Z.of_nat (length v) - s)) with (length v) by lia.
  unfold write_at. rewrite app_assoc, drop_app_length'.
  - rewrite take_app_length. reflexivity.
  - rewrite length_app, length_firstn, repeat_length. lia.
Qed.

(** A byte-range [set_async] on an existing file succeeds for any
    nonnegative offset [s], changes no other entry, and overwrites the
    file in place: the bytes before [s] are kept (a gap past the end is
    filled with zero bytes) and so are the bytes after [s + len v]. *)
Theorem set_range_existing (am : bool) (m : fs) k d v s e :
  k <> [] -> get_async m k None = inl (Some d) -> 0 <= s ->
  set_async am m k v (Some (s, e)) =
  inl (<[k := NFile (firstn (Z.to_nat s) d ++ repeat Byte.x00 (Z.to_nat s - length d)
                       ++ v ++ skipn (Z.to_nat s + length v) d)]> m).
Proof.
  intros Hk Hg Hs.
  unfold get_async, cat_file, open_rb in Hg.
  destruct (resolve m k) as [[d'|]|] eqn:R; try discriminate.
  cbn in Hg. injection Hg as <-.
  unfold set_async, put_file.
  replace (if am then mkdir_parents m (removelast k) else inl m) with (@inl fs errno m).
  2:{ destruct am; [|reflexivity]. symmetry. apply is_dir_mkdir_p.
      exact (resolve_parent_is_dir _ _ _ R). }
  unfold write_range. destruct k as [|x k']; [congruence|].
  rewrite R. destruct (s <? 0) eqn:E; [lia|]. reflexivity.
Qed.

(** A byte-range [set_async] never creates a file: on a key with no
    entry it raises. *)
Theorem set_range_missing_raises (am : bool) (m : fs) k v s e :
  m !! k = None -> exists err, set_async am m k v (Some (s, e)) = inr err.
Proof.
  intros Hn. unfold set_async, put_file.
  destruct (if am then mkdir_parents m (removelast k) else inl m) as [m1|err] eqn:M;
    [|eexists; reflexivity].
  pose proof (set_mkdir_key _ _ _ _ M) as Hk. rewrite Hn in Hk.
  unfold write_range. destruct k as [|x k']; [eexists; reflexivity|].
  unfold resolve. rewrite Hk.
  destruct (parent_error m1 [] (x :: k')) as [[]|]; eexists; reflexivity.
Qed.

(** A successful [set_async] changes no entry other than the key, except
    for the parent directories it creates: directories at proper
    prefixes of the key that had no entry. *)
Theorem set_frame (am : bool) (m m' : fs) k v byte_range :
  set_async am m k v byte_range = inl m' ->
  forall q, q <> k ->
  m' !! q = m !! q \/
  (m !! q = None /\ m' !! q = Some NDir /\
   exists i, (0 < i < length k)%nat /\ q = firstn i k).
Proof.
  intros H q Hq.
  assert (H' : exists start, put_file am m k v start = inl m')
    by (destruct byte_range as [[s' e']|]; eexists; exact H).
  destruct H' as [start H'].
  destruct (put_file_inv _ _ _ _ _ _ H') as (m1 & M & W).
  assert (Hm' : m' !! q = m1 !! q).
  { destruct start as [s|].
    - destruct (write_range_inv _ _ _ _ _ W) as (d & _ & _ & ->).
      apply lookup_insert_ne. congruence.
    - destruct (write_bytes_inv _ _ _ _ W) as (_ & _ & ->).
      apply lookup_insert_ne. congruence. }
  rewrite Hm'. exact (set_mkdir_grows _ _ _ _ M q).
Qed.

(** With [auto_mkdir], a [set_async] without byte range succeeds
    whenever no proper prefix of the key is a file and the key is not a
    directory; missing parent directories are created. *)
Theorem set_auto_mkdir_succeeds (m : fs) k v :
  k <> [] ->
  (forall i d, (0 < i < length k)%nat -> m !! firstn i k <> Some (NFile d)) ->
  m !! k <> Some NDir ->
  exists m', set_async true m k v None = inl m'.
Proof.
  intros Hk Hf Hd.
  destruct (mkdir_p_ok (length (removelast k)) m (removelast k)) as (m1 & M & D); [reflexivity| |].
  { intros i d Hi. rewrite length_removelast in Hi.
    rewrite firstn_removelast by lia. apply Hf. lia. }
  assert (Hk1 : m1 !! k = m !! k).
  { apply (set_mkdir_key true m m1 k). exact M. }
  assert (Pe : parent_error m1 [] k = None).
  { apply parent_error_none_iff. intros i Hi. simpl.
    rewrite <- firstn_removelast by lia. apply D. rewrite length_removelast. lia. }
  unfold set_async, put_file, mkdir_parents. rewrite M.
  unfold write_bytes, parent_errno. destruct k as [|x k']; [congruence|].
  rewrite Pe, Hk1. destruct (m !! (x :: k')) as [[]|]; [eexists; reflexivity|congruence|eexists; reflexivity].
Qed.


(** The file tree the store keeps: the parent directories of every
    entry exist. *)
Definition well_formed (m : fs) : Prop :=
  forall p n, m !! p = Some n -> parent_error m [] p = None.

Lemma resolve_lookup (m : fs) k n : resolve m k = inl n -> m !! k = Some n.
Proof.
  unfold resolve. destruct (parent_error m [] k); [discriminate|].
  destruct (m !! k); [congruence|discriminate].
Qed.

Lemma wf_insert (m : fs) p n :
  well_formed m -> parent_error m [] p = None ->
  n = NDir \/ m !! p <> Some NDir ->
  well_formed (<[p := n]> m).
Proof.
  intros Hw Pe Hn q n' Hq.
  destruct (decide (q = p)) as [->|Hne].
  - rewrite (parent_error_agree m); [exact Pe|].
    intros q Hl. apply lookup_insert_ne. intros ->. simpl in Hl. lia.
  - rewrite lookup_insert_ne in Hq by congruence.
    pose proof (proj1 (parent_error_none_iff m q []) (Hw _ _ Hq)) as D.
    apply parent_error_none_iff. intros i Hi. simpl.
    destruct (decide (firstn i q = p)) as [Heq|Hne'].
    + rewrite Heq, lookup_insert_eq.
      destruct Hn as [->|Hnd]; [reflexivity|].
      exfalso. apply Hnd. rewrite <- Heq. exact (D i Hi).
    + rewrite lookup_insert_ne by congruence. exact (D i Hi).
Qed.

Lemma mkdir_p_wf : forall fuel (m m1 : fs) p,
  well_formed m -> mkdir_p fuel m p = inl m1 -> well_formed m1.
Proof.
  assert (Hos : forall (m m1 : fs) p, well_formed m -> os_mkdir m p = inl m1 -> well_formed m1).
  { intros m m1 p Hw E. apply os_mkdir_inl in E as (_ & Pe & _ & ->).
    apply wf_insert; auto. }
  induction fuel as [|n IH]; intros m m1 p Hw H; cbn [mkdir_p] in H.
  - destruct (os_mkdir m p) as [m'|e] eqn:E.
    + injection H as <-. exact (Hos _ _ _ Hw E).
    + destruct e; try discriminate; destruct (is_dir m p); try discriminate;
        injection H as <-; exact Hw.
  - destruct (os_mkdir m p) as [m'|e] eqn:E.
    + injection H as <-. exact (Hos _ _ _ Hw E).
    + destruct e; try (destruct (is_dir m p); try discriminate; injection H as <-; exact Hw).
      destruct p as [|x p']; [discriminate|].
      destruct (mkdir_p n m (removelast (x :: p'))) as [m2|e] eqn:E2; [|discriminate].
      pose proof (IH _ _ _ Hw E2) as Hw2.
      destruct (os_mkdir m2 (x :: p')) as [m3|e'] eqn:E3.
      * injection H as <-. exact (Hos _ _ _ Hw2 E3).
      * destruct e'; try discriminate; destruct (is_dir m2 (x :: p')); try discriminate;
          injection H as <-; exact Hw2.
Qed.

(** [set_async] keeps the file tree well formed. *)
Theorem set_keeps_well_formed (am : bool) (m m' : fs) k v byte_range :
  well_formed m -> set_async am m k v byte_range = inl m' -> well_formed m'.
Proof.
  intros Hw H.
  assert (H' : exists start, put_file am m k v start = inl m')
    by (destruct byte_range as [[s' e']|]; eexists; exact H).
  destruct H' as [start H'].
  destruct (put_file_inv _ _ _ _ _ _ H') as (m1 & M & W).
  assert (Hw1 : well_formed m1).
  { destruct am; [exact (mkdir_p_wf _ _ _ _ Hw M)|injection M as <-; exact Hw]. }
  destruct start as [s|].
  - destruct (write_range_inv _ _ _ _ _ W) as (d & R & _ & ->).
    apply wf_insert; [exact Hw1|exact (resolve_parent _ _ _ R)|].
    right. rewrite (resolve_lookup _ _ _ R). discriminate.
  - destruct (write_bytes_inv _ _ _ _ W) as (Pe & Hd & ->).
    apply wf_insert; auto.
Qed.

(** [delete_async] keeps the file tree well formed. *)
Theorem delete_keeps_well_formed (m m' : fs) k err :
  well_formed m -> delete_async m k = (m', err) -> well_formed m'.
Proof.
  intros Hw H. unfold delete_async in H.
  destruct (resolve m k) as [[d|]|[]] eqn:R; injection H as <- _; try exact Hw.
  intros q n Hq.
  destruct (decide (q = k)) as [->|Hne]; [rewrite lookup_delete_eq in Hq; discriminate|].
  rewrite lookup_delete_ne in Hq by congruence.
  pose proof (proj1 (parent_error_none_iff m q []) (Hw _ _ Hq)) as D.
  apply parent_error_none_iff. intros i Hi. simpl.
  destruct (decide (k = firstn i q)) as [Heq|Hne'].
  - exfalso. pose proof (D i Hi) as Hd. simpl in Hd.
    rewrite <- Heq, (resolve_lookup _ _ _ R) in Hd. discriminate.
  - rewrite lookup_delete_ne by exact Hne'. exact (D i Hi).
Qed.


(** A small tree: directory [a] holding the one-byte file [a/f]. *)
Definition ex_fs : fs :=
  {[ ["a"]%string := NDir; ["a"; "f"]%string := NFile [Byte.x01] ]}.

Lemma ex_fs_well_formed : well_formed ex_fs.
Proof.
  intros p n H. unfold ex_fs in H.
  apply lookup_insert_Some in H as [[<- <-]|[_ H]]; [reflexivity|].
  apply lookup_singleton_Some in H as [<- <-]. reflexivity.
Qed.

Lemma delete_then_absent_witness :
  exists m', delete_async ex_fs ["a"; "f"]%string = (m', None) /\
    exists_async m' ["a"; "f"]%string = false /\ get_async m' ["a"; "f"]%string None = inl None.
Proof.
  exists (delete ["a"; "f"]%string ex_fs).
  assert (E : delete_async ex_fs ["a"; "f"]%string = (delete ["a"; "f"]%string ex_fs, None))
    by (vm_compute; reflexivity).
  split; [exact E|exact (delete_then_absent _ _ _ None E)].
Defined.

Lemma set_then_get_witness :
  exists m', set_async true ex_fs ["a"; "b"; "g"]%string [Byte.x02] None = inl m' /\
    get_async m' ["a"; "b"; "g"]%string None = inl (Some [Byte.x02]) /\
    exists_async m' ["a"; "b"; "g"]%string = true.
Proof.
  destruct (set_async true ex_fs ["a"; "b"; "g"]%string [Byte.x02] None) as [m'|e] eqn:E;
    [|vm_compute in E; discriminate].
  exists m'. split; [reflexivity|exact (set_then_get _ _ _ _ _ E)].
Defined.

Lemma set_range_then_get_witness :
  exists m', set_async false ex_fs ["a"; "f"]%string [Byte.x02] (Some (3, 4)) = inl m' /\
    0 <= 3 /\ get_async m' ["a"; "f"]%string (Some (Some 3, Some (3 + 1))) = inl (Some [Byte.x02]).
Proof.
  destruct (set_async false ex_fs ["a"; "f"]%string [Byte.x02] (Some (3, 4))) as [m'|e] eqn:E;
    [|vm_compute in E; discriminate].
  exists m'. split; [reflexivity|exact (set_range_then_get _ _ _ _ _ _ _ E)].
Defined.

Lemma set_range_existing_witness :
  ["a"; "f"]%string <> [] /\ get_async ex_fs ["a"; "f"]%string None = inl (Some [Byte.x01]) /\ 0 <= 3 /\
  set_async true ex_fs ["a"; "f"]%string [Byte.x02] (Some (3, 4)) =
  inl (<[["a"; "f"]%string := NFile (firstn 3 [Byte.x01] ++ repeat Byte.x00 (3 - 1)
                                  ++ [Byte.x02] ++ skipn (3 + 1) [Byte.x01])]> ex_fs).
Proof.
  assert (Hk : ["a"; "f"]%string <> []) by discriminate.
  assert (Hg : get_async ex_fs ["a"; "f"]%string None = inl (Some [Byte.x01])) by (vm_compute; reflexivity).
  assert (Hs : 0 <= 3) by lia.
  split; [exact Hk|]. split; [exact Hg|]. split; [exact Hs|].
  exact (set_range_existing true ex_fs _ _ _ 3 4 Hk Hg Hs).
Defined.

Lemma set_range_missing_raises_witness :
  ex_fs !! ["a"; "g"]%string = None /\
  exists err, set_async true ex_fs ["a"; "g"]%string [Byte.x02] (Some (0, 1)) = inr err.
Proof.
  assert (Hn : ex_fs !! ["a"; "g"]%string = None) by (vm_compute; reflexivity).
  split; [exact Hn|exact (set_range_missing_raises true ex_fs _ [Byte.x02] 0 1 Hn)].
Defined.

Lemma set_frame_witness :
  exists m', set_async true ex_fs ["a"; "b"; "g"]%string [Byte.x02] None = inl m' /\
    m' !! ["a"; "b"]%string = Some NDir /\
    forall q, q <> ["a"; "b"; "g"]%string ->
    m' !! q = ex_fs !! q \/
    (ex_fs !! q = None /\ m' !! q = Some NDir /\
     exists i, (0 < i < length ["a"; "b"; "g"]%string)%nat /\ q = firstn i ["a"; "b"; "g"]%string).
Proof.
  destruct (set_async true ex_fs ["a"; "b"; "g"]%string [Byte.x02] None) as [m'|e] eqn:E;
    [|vm_compute in E; discriminate].
  exists m'. split; [reflexivity|]. split.
  - vm_compute in E. injection E as <-. vm_compute. reflexivity.
  - exact (set_frame _ _ _ _ _ _ E).
Defined.

Lemma set_auto_mkdir_succeeds_witness :
  exists m', set_async true ex_fs ["a"; "b"; "g"]%string [Byte.x02] None = inl m'.
Proof.
  apply set_auto_mkdir_succeeds.
  - discriminate.
  - intros i d Hi. destruct i as [|[|[|i]]]; simpl in Hi; try lia; vm_compute; discriminate.
  - vm_compute. discriminate.
Defined.

Lemma set_keeps_well_formed_witness :
  exists m', set_async true ex_fs ["a"; "b"; "g"]%string [Byte.x02] None = inl m' /\
    well_formed m'.
Proof.
  destruct (set_async true ex_fs ["a"; "b"; "g"]%string [Byte.x02] None) as [m'|e] eqn:E;
    [|vm_compute in E; discriminate].
  exists m'. split; [reflexivity|exact (set_keeps_well_formed _ _ _ _ _ _ ex_fs_well_formed E)].
Defined.

Lemma delete_keeps_well_formed_witness :
  delete_async ex_fs ["a"; "f"]%string = (delete ["a"; "f"]%string ex_fs, None) /\
  well_formed (delete ["a"; "f"]%string ex_fs).
Proof.
  assert (E : delete_async ex_fs ["a"; "f"]%string = (delete ["a"; "f"]%string ex_fs, None))
    by (vm_compute; reflexivity).
  split; [exact E|exact (delete_keeps_well_formed _ _ _ _ ex_fs_well_formed E)].
Defined.

End StoreWriteFacts.

Module StorePathFacts.
Import StorePathJoin.

Lemma append_assoc_s (x y z : string) : (x ++ (y ++ z) = (x ++ y) ++ z)%string.
Proof.
  induction x as [|c x IH]; [reflexivity|].
  change (String c (x ++ (y ++ z)) = String c ((x ++ y) ++ z))%string.
  rewrite IH. reflexivity.
Qed.

(** Stripping only looks at the tail once it is not all slashes. *)
Lemma rstrip_app (x y : string) : rstrip_slash y <> EmptyString ->
  rstrip_slash (x ++ y) = (x ++ rstrip_slash y)%string.
Proof.
  intros Hy. induction x as [|c x IH]; [reflexivity|].
  change (rstrip_slash (String c (x ++ y)) = String c (x ++ rstrip_slash y))%string.
  cbn [rstrip_slash]. rewrite IH.
  destruct (x ++ rstrip_slash y)%string eqn:E; [|reflexivity].
  exfalso. destruct x as [|a x].
  - change (rstrip_slash y = EmptyString) in E. congruence.
  - change (String a (x ++ rstrip_slash y) = EmptyString)%string in E. discriminate.
Qed.

(** Joining a [StorePath] twice is joining once with the two parts
    separated by a slash, when the first part is nonempty and has no
    trailing slash. *)
Theorem truediv_truediv (p a b : string) :
  a <> EmptyString -> rstrip_slash a = a ->
  truediv (truediv p a) b = truediv p (a ++ "/" ++ b).
Proof.
  intros Ha Hr. unfold truediv, dereference_path.
  destruct (String.eqb p "") eqn:Ep.
  - rewrite Hr. destruct a; [congruence|]. reflexivity.
  - assert (E : rstrip_slash (p ++ "/" ++ a) = (p ++ "/" ++ a)%string).
    { rewrite rstrip_app.
      - f_equal. change ("/" ++ a)%string with (String (Ascii.ascii_of_nat 47) a).
        cbn [rstrip_slash]. rewrite Hr. destruct a; [congruence|reflexivity].
      - change ("/" ++ a)%string with (String (Ascii.ascii_of_nat 47) a). cbn [rstrip_slash].
        rewrite Hr. destruct a; [congruence|discriminate]. }
    rewrite E.
    assert (Hne : String.eqb (p ++ "/" ++ a) "" = false).
    { destruct p; [discriminate Ep|reflexivity]. }
    rewrite Hne. rewrite <- !append_assoc_s. reflexivity.
Qed.


Lemma truediv_truediv_witness :
  "x"%string <> EmptyString /\ rstrip_slash "x" = "x"%string /\
  truediv (truediv "root" "x") "y" = truediv "root" ("x" ++ "/" ++ "y").
Proof.
  assert (Ha : "x"%string <> EmptyString) by discriminate.
  assert (Hr : rstrip_slash "x" = "x"%string) by reflexivity.
  split; [exact Ha|]. split; [exact Hr|]. exact (truediv_truediv "root" _ "y" Ha Hr).
Defined.

End StorePathFacts.

Module MetaFacts.
Import Meta.

Definition old_doc : ArrayMetadata :=
  mkMeta [4%nat] int32 [2%nat] (DefaultEncoding "/") (PInt 0) [endian_codec] None [].

(** The store of an existing array: its metadata document only. *)
Definition existing_store : store := {[ ZARR_JSON := ODoc old_doc ]}.

(** [create(..., exists_ok=True)] with a [chunk_shape] whose rank is
    not the rank of [shape]. *)
Definition bad_rank_args : create_args :=
  mkArgs [4%nat] int32 [2%nat; 2%nat] PNone (DefaultEncoding "/") None None None true.

(** [create(..., exists_ok=True, fill_value=np.int64(1))]: the metadata
    validates, but [json.dumps] cannot encode the NumPy scalar. *)
Definition numpy_fill_args : create_args :=
  mkArgs [4%nat] int32 [2%nat] (PObject true) (DefaultEncoding "/") None None None true.

(** [create(..., exists_ok=True)] with arguments that validate and
    serialise. *)
Definition good_args : create_args :=
  mkArgs [4%nat] int32 [2%nat] (PInt 0) (DefaultEncoding "/") None None None true.

(** C9 (counterexample). With [exists_ok=True], [create] does not always
    rewrite the existing document. With metadata that fails validation
    it raises [AssertionError]; with a fill value [json.dumps] cannot
    encode ([np.int64(1)]) the codec list and the validation pass, and
    it raises [TypeError]. In both cases the store keeps the old
    document. *)
Theorem create_exists_ok_invalid_keeps_doc :
  create_async existing_store bad_rank_args
    = (existing_store,
       inr (AssertionError "`chunk_shape` and `shape` need to have the same number of dimensions."))
  /\ pipeline_ok (md_codecs (build_metadata numpy_fill_args)) = true
  /\ validate_metadata (build_metadata numpy_fill_args) = None
  /\ create_async existing_store numpy_fill_args = (existing_store, inr TypeError)
  /\ existing_store !! ZARR_JSON = Some (ODoc old_doc).
Proof. repeat split; reflexivity. Qed.

(** C9 (amended). With [exists_ok=False] and a document present,
    [create] fails and leaves the store as it was. With
    [exists_ok=True] the existence check is skipped: when the codec
    list is a valid pipeline, the new metadata validates and
    [json.dumps] can encode it, the document is rewritten with it;
    otherwise [create] fails and leaves the store as it was. *)
Theorem create_exists_ok_spec (st : store) (a : create_args) :
  (a_exists_ok a = false -> is_Some (st !! ZARR_JSON) ->
   exists e, create_async st a = (st, inr e))
  /\ (a_exists_ok a = true ->
      pipeline_ok (md_codecs (build_metadata a)) = true ->
      validate_metadata (build_metadata a) = None ->
      metadata_json_ok (build_metadata a) = true ->
      create_async st a
        = (<[ZARR_JSON := ODoc (build_metadata a)]> st, inl (build_metadata a)))
  /\ (a_exists_ok a = true ->
      (pipeline_ok (md_codecs (build_metadata a)) = false
       \/ validate_metadata (build_metadata a) <> None
       \/ metadata_json_ok (build_metadata a) = false) ->
      exists e, create_async st a = (st, inr e)).
Proof.
  unfold create_async. split; [|split].
  - intros Hx [o Ho]. rewrite Hx, Ho. simpl. eauto.
  - intros Hx Hp Hv Hj. rewrite Hx, Hp. simpl.
    unfold save_metadata. rewrite Hv, Hj. reflexivity.
  - intros Hx Hbad. rewrite Hx. simpl.
    destruct (pipeline_ok _) eqn:Hp; simpl; [|eauto].
    unfold save_metadata.
    destruct (validate_metadata _) as [msg|] eqn:Hv; [eauto|].
    destruct (metadata_json_ok _) eqn:Hj; [|eauto].
    destruct Hbad as [Hbad|[Hbad|Hbad]]; congruence.
Qed.

Lemma create_exists_ok_spec_witness :
  (exists e, create_async existing_store
               (mkArgs [4%nat] int32 [2%nat] (PInt 0) (DefaultEncoding "/") None None None false)
             = (existing_store, inr e))
  /\ create_async existing_store good_args
     = (<[ZARR_JSON := ODoc (build_metadata good_args)]> existing_store,
        inl (build_metadata good_args))
  /\ (exists e, create_async existing_store numpy_fill_args = (existing_store, inr e)).
Proof.
  destruct (create_exists_ok_spec existing_store
              (mkArgs [4%nat] int32 [2%nat] (PInt 0) (DefaultEncoding "/") None None None false))
    as [H1 _].
  destruct (create_exists_ok_spec existing_store good_args) as [_ [H2 _]].
  destruct (create_exists_ok_spec existing_store numpy_fill_args) as [_ [_ H3]].
  split; [apply H1; [reflexivity | eexists; reflexivity]|split].
  - apply H2; reflexivity.
  - apply H3; [reflexivity | right; right; reflexivity].
Defined.

(** C10. Whenever [create] succeeds, the metadata it stores has the
    fill value 0 (the integer) if the [fill_value] argument was falsy
    ([None], [0], [0.0], [False], ...), and its fill value is never
    [None]. *)
Theorem create_fill_value_default (st st' : store) (a : create_args)
  (md : ArrayMetadata) :
  create_async st a = (st', inl md) ->
  st' !! ZARR_JSON = Some (ODoc md)
  /\ (truthy (a_fill_value a) = false -> md_fill_value md = PInt 0)
  /\ md_fill_value md <> PNone.
Proof.
  unfold create_async.
  destruct (negb (a_exists_ok a) && _); [discriminate|].
  destruct (negb (pipeline_ok _)); [discriminate|].
  unfold save_metadata.
  destruct (validate_metadata (build_metadata a)) as [msg|] eqn:Hv;
    [intros H; inversion H|].
  destruct (metadata_json_ok (build_metadata a)); intros H; inversion H; subst; clear H.
  split; [apply lookup_insert_eq|split].
  - intros Hf. simpl. unfold py_or. rewrite Hf. reflexivity.
  - intros Hn. unfold validate_metadata in Hv. rewrite Hn in Hv.
    revert Hv. destruct (negb _); [discriminate|].
    destruct (match md_dimension_names _ with
              | Some dn => _ | None => false end); discriminate.
Qed.

Lemma create_fill_value_default_witness :
  create_async ∅ (mkArgs [4%nat] float64 [2%nat] (PFloat 0) (DefaultEncoding "/") None None None false)
    = (<[ZARR_JSON := ODoc (mkMeta [4%nat] float64 [2%nat] (DefaultEncoding "/") (PInt 0)
                            [endian_codec] None [])]> ∅,
       inl (mkMeta [4%nat] float64 [2%nat] (DefaultEncoding "/") (PInt 0) [endian_codec] None []))
  /\ md_fill_value (mkMeta [4%nat] float64 [2%nat] (DefaultEncoding "/") (PInt 0)
                            [endian_codec] None []) = PInt 0.
Proof.
  split; [reflexivity|].
  apply (create_fill_value_default ∅
           (<[ZARR_JSON := ODoc (mkMeta [4%nat] float64 [2%nat] (DefaultEncoding "/") (PInt 0)
                            [endian_codec] None [])]> ∅)
           (mkArgs [4%nat] float64 [2%nat] (PFloat 0) (DefaultEncoding "/") None None None false));
    reflexivity.
Defined.

End MetaFacts.

Module DecodeFacts.
Import Decode.

(** C5. Whenever the fix-up of [_decode_chunk] returns, the chunk has
    exactly the declared [chunk_shape] and [data_type], and its bytes
    are the decoded bytes unchanged (a reinterpretation, no cast). *)
Theorem decode_fixup_declared (data_type : DataType) (chunk_shape : list nat)
  (a r : ndarray) :
  decode_fixup data_type chunk_shape a = inl r ->
  nd_shape r = chunk_shape /\ nd_dtype r = data_type /\ nd_bytes r = nd_bytes a.
Proof.
  unfold decode_fixup.
  destruct (DataType_eq_dec (nd_dtype a) data_type) as [Hd|Hd].
  - destruct (decide (nd_shape a = chunk_shape)) as [Hs|Hs].
    + intros H. inversion H; subst. auto.
    + unfold reshape. destruct (_ =? _)%nat; [|discriminate].
      intros H. inversion H; subst. simpl. auto.
  - unfold view.
    destruct (itemsize (nd_dtype a) =? itemsize data_type).
    + simpl. destruct (decide (nd_shape a = chunk_shape)) as [Hs|Hs].
      * intros H. inversion H; subst. simpl. auto.
      * unfold reshape. simpl. destruct (_ =? _)%nat; [|discriminate].
        intros H. inversion H; subst. simpl. auto.
    + destruct (rev (nd_shape a)) as [|last init]; [discriminate|].
      destruct (_ =? 0); [|discriminate]. simpl.
      destruct (decide (_ = chunk_shape)) as [Hs|Hs].
      * intros H. inversion H; subst. simpl. auto.
      * unfold reshape. simpl. destruct (_ =? _)%nat; [|discriminate].
        intros H. inversion H; subst. simpl. auto.
Qed.

(** A pipeline that returned the chunk of shape (4,) as a flat
    [uint8] buffer of 16 bytes, for an [int32] array. *)
Definition flat_bytes : ndarray := mkNd [16%nat] uint8 (repeat Byte.x00 16).

Lemma decode_fixup_declared_witness :
  decode_fixup int32 [4%nat] flat_bytes = inl (mkNd [4%nat] int32 (repeat Byte.x00 16))
  /\ nd_shape (mkNd [4%nat] int32 (repeat Byte.x00 16)) = [4%nat].
Proof.
  split; [reflexivity|].
  apply (decode_fixup_declared int32 [4%nat] flat_bytes); reflexivity.
Defined.

End DecodeFacts.

Module NormalizeFacts.
Import Normalize.

(** A [uint8] array holding 2, written to a [bool] array of the same
    selection shape (1,). *)
Definition two_u8 : nparray := mkArr [1%nat] uint8 [2].

(** C4 (counterexample). [bool] and [uint8] have the same bit width,
    yet the value is cast ([astype] stores [True], the pattern 1), not
    reinterpreted (which would keep the pattern 2). *)
Theorem normalize_casts_same_width :
  normalize_value np_astype_int np_from_py_int bool_ [1%nat] (VArray two_u8)
    = Some (VArray (mkArr [1%nat] bool_ [1]))
  /\ spec_normalize_value np_astype_int np_from_py_int bool_ [1%nat] (VArray two_u8)
    = Some (VArray (mkArr [1%nat] bool_ [2])).
Proof. split; reflexivity. Qed.

(** C4 (amended). A non-scalar value whose shape is not the selection's
    shape fails the assertion; otherwise an array whose dtype differs
    from the array's dtype is converted element by element with
    numpy's numeric cast [astype], whatever the bit widths, and a value
    without a shape is first converted with [np.asarray(value, dtype)].
    A scalar passes unchanged. *)
Theorem normalize_value_spec (astype_elem : DataType -> DataType -> Z -> Z)
  (from_py : DataType -> Z -> Z) (dtype : DataType) (sel_shape : list nat) :
  (forall a : nparray,
     normalize_value astype_elem from_py dtype sel_shape (VArray a)
     = if decide (arr_shape a = sel_shape) then
         Some (VArray (if DataType_eq_dec (arr_dtype a) dtype then a
                       else mkArr (arr_shape a) dtype
                              (map (astype_elem (arr_dtype a) dtype) (arr_data a))))
       else None)
  /\ (forall (sh : list nat) (xs : list Z),
        normalize_value astype_elem from_py dtype sel_shape (VList sh xs)
        = if decide (sh = sel_shape)
          then Some (VArray (mkArr sh dtype (map (from_py dtype) xs)))
          else None)
  /\ (forall x : Z,
        normalize_value astype_elem from_py dtype sel_shape (VScalar x) = Some (VScalar x)).
Proof.
  split; [|split].
  - intros a. simpl.
    destruct (decide (arr_shape a = sel_shape)); [|reflexivity].
    destruct (DataType_eq_dec (arr_dtype a) dtype); reflexivity.
  - intros sh xs. simpl.
    destruct (decide (sh = sel_shape)); [|reflexivity].
    destruct (DataType_eq_dec dtype dtype); [reflexivity|congruence].
  - reflexivity.
Qed.

End NormalizeFacts.

Module IndexFacts.
Import Engine.

Lemma cartesian_In {A : Type} (rs : list (list A)) (x : list A) :
  In x (cartesian rs) <-> Forall2 (fun y r => In y r) x rs.
Proof.
  revert x. induction rs as [|r rs IH]; intros x; simpl.
  - split; [intros [<-|[]]; constructor|].
    intros H. inversion H. auto.
  - rewrite in_flat_map. split.
    + intros (y & Hy & Hx). apply in_map_iff in Hx as (ys & <- & Hys).
      constructor; [exact Hy|]. apply IH. exact Hys.
    + intros H. inversion H as [|y r' ys rs' Hy Hys]; subst.
      exists y. split; [exact Hy|]. apply in_map. apply IH. exact Hys.
Qed.

Lemma cartesian_NoDup {A : Type} (rs : list (list A)) :
  Forall (fun r => NoDup r) rs -> NoDup (cartesian rs).
Proof.
  induction rs as [|r rs IH]; intros Hnd; simpl.
  - apply NoDup_singleton.
  - inversion Hnd as [|r' rs' Hr Hrs]; subst.
    specialize (IH Hrs). clear Hnd Hrs.
    induction r as [|y r IHr]; simpl; [constructor|].
    inversion Hr as [|y' r' Hy Hr']; subst.
    apply NoDup_app. split; [|split].
    + apply NoDup_fmap; [intros ?? H; inversion H; auto|exact IH].
    + intros x Hx1 Hx2.
      apply list_elem_of_In in Hx1, Hx2.
      apply in_map_iff in Hx1 as (ys & <- & _).
      apply in_flat_map in Hx2 as (y2 & Hy2 & Hx2).
      apply in_map_iff in Hx2 as (ys2 & Heq & _). inversion Heq; subst.
      apply Hy. apply list_elem_of_In. exact Hy2.
    + apply IHr. exact Hr'.
Qed.

Lemma in_box_full (sh : list nat) (j : coord) :
  in_shape sh j = true <-> Forall2 (fun x n => (x < n)%nat) j sh.
Proof.
  unfold in_shape, full_box. revert j.
  induction sh as [|n sh IH]; intros [|x j]; simpl.
  - split; auto.
  - split; [discriminate|intros H; inversion H].
  - split; [discriminate|intros H; inversion H].
  - rewrite !andb_true_iff, Nat.ltb_lt, IH. split.
    + intros [H1 H2]. constructor; auto.
    + intros H. inversion H; subst. split; auto.
Qed.

Lemma cells_In (sh : list nat) (j : coord) :
  In j (cells sh) <-> in_shape sh j = true.
Proof.
  unfold cells. rewrite cartesian_In, in_box_full. revert j.
  induction sh as [|n sh IH]; intros [|x j]; simpl.
  - split; constructor.
  - split; intros H; inversion H.
  - split; intros H; inversion H.
  - split; intros H; inversion H; subst; constructor.
    + apply in_seq in H3. lia.
    + apply IH. auto.
    + apply in_seq. lia.
    + apply IH. auto.
Qed.

End IndexFacts.

Module AxisFacts.
Import Engine.

Lemma axis_divmod (a x n : nat) :
  (0 < n)%nat -> (n * ((a + x) / n) + (a + x) mod n = a + x /\ (a + x) mod n < n)%nat.
Proof.
  intros Hn. split.
  - symmetry. apply Nat.div_mod. lia.
  - apply Nat.mod_upper_bound. lia.
Qed.

Lemma axis_out_iff (a b n x k : nat) :
  (0 < n)%nat -> (x < b - a)%nat ->
  ((Nat.max a (k * n) - a <=? x)%nat && (x <? Nat.min b (k * n + n) - a)%nat = true
   <-> k = ((a + x) / n)%nat).
Proof.
  intros Hn Hx. destruct (axis_divmod a x n Hn) as [Hd Hr].
  rewrite andb_true_iff, Nat.leb_le, Nat.ltb_lt. split.
  - intros [H1 H2].
    apply (Nat.div_unique (a + x) n k (a + x - k * n)); nia.
  - intros ->. set (q := ((a + x) / n)%nat) in *. nia.
Qed.

Lemma axis_read_pos (a b n x : nat) :
  (0 < n)%nat -> (x < b - a)%nat ->
  let k := ((a + x) / n)%nat in
  (Nat.max a (k * n) - k * n + (x - (Nat.max a (k * n) - a)) = (a + x) mod n)%nat.
Proof.
  intros Hn Hx k. destruct (axis_divmod a x n Hn) as [Hd Hr].
  subst k. set (q := ((a + x) / n)%nat) in *. nia.
Qed.

Lemma axis_write_pos (a b n x : nat) :
  (0 < n)%nat -> (x < b - a)%nat ->
  let k := ((a + x) / n)%nat in
  let r := ((a + x) mod n)%nat in
  (Nat.max a (k * n) - k * n <=? r)%nat && (r <? Nat.min b (k * n + n) - k * n)%nat = true
  /\ (r < n)%nat
  /\ (Nat.max a (k * n) - a + (r - (Nat.max a (k * n) - k * n)) = x)%nat.
Proof.
  intros Hn Hx k r. destruct (axis_divmod a x n Hn) as [Hd Hr].
  subst k r. set (q := ((a + x) / n)%nat) in *. set (r := ((a + x) mod n)%nat) in *.
  rewrite andb_true_iff, Nat.leb_le, Nat.ltb_lt. split; [split|split]; nia.
Qed.

Lemma axis_chunk_in_range (a b n x : nat) :
  (0 < n)%nat -> (x < b - a)%nat ->
  In ((a + x) / n)%nat (dim_chunks a b n).
Proof.
  intros Hn Hx. unfold dim_chunks, ceildiv. apply in_seq.
  destruct (axis_divmod a x n Hn) as [Hd Hr].
  assert (H1 : (a / n <= (a + x) / n)%nat) by (apply Nat.Div0.div_le_mono; lia).
  assert (H2 : ((a + x) / n + 1 <= (b + n - 1) / n)%nat).
  { apply Nat.div_le_lower_bound; [lia|]. nia. }
  lia.
Qed.

Lemma axis_outside_grid (n m k : nat) :
  (0 < m)%nat -> (n <= k * m)%nat -> ~ In k (seq 0 (ceildiv n m)).
Proof.
  intros Hm Hle Hin. apply in_seq in Hin. unfold ceildiv in Hin.
  assert (H : ((n + m - 1) / m < k + 1)%nat).
  { apply Nat.Div0.div_lt_upper_bound. nia. }
  lia.
Qed.

End AxisFacts.

Module SelFacts.
Import Engine IndexFacts AxisFacts.

Lemma in_shape_cons (n : nat) (sh : list nat) (x : nat) (i : coord) :
  in_shape (n :: sh) (x :: i) = (x <? n)%nat && in_shape sh i.
Proof. reflexivity. Qed.

Lemma in_shape_nil_inv (i : coord) : in_shape [] i = true -> i = [].
Proof. destruct i; [reflexivity|discriminate]. Qed.

Lemma in_shape_cons_inv (n : nat) (sh : list nat) (i : coord) :
  in_shape (n :: sh) i = true ->
  exists x i', i = x :: i' /\ (x < n)%nat /\ in_shape sh i' = true.
Proof.
  destruct i as [|x i']; [discriminate|].
  rewrite in_shape_cons, andb_true_iff, Nat.ltb_lt. intros [H1 H2]. eauto.
Qed.

Lemma out_box_iff (sel : list slice) : forall cs i c,
  Forall (fun n => 0 < n)%nat cs -> length cs = length sel ->
  in_shape (sel_shape sel) i = true -> length c = length sel ->
  in_box (out_selection sel cs c) i = true <-> c = chunk_of sel cs i.
Proof.
  induction sel as [|[a b] sel IH]; intros cs i c Hcs Hl Hi Hc.
  - apply in_shape_nil_inv in Hi as ->. destruct c; [|discriminate].
    destruct cs; simpl; split; auto.
  - destruct cs as [|n cs]; [discriminate|].
    apply in_shape_cons_inv in Hi as (x & i' & -> & Hx & Hi).
    destruct c as [|k c]; [discriminate|].
    inversion Hcs as [|? ? Hn Hcs']; subst.
    simpl in Hl, Hc.
    cbn [out_selection chunk_of in_box dim_out_sel].
    rewrite andb_true_iff, axis_out_iff by (simpl in Hx; lia).
    rewrite IH by (auto; lia). split.
    + intros [-> ->]. reflexivity.
    + intros H. injection H as -> ->. auto.
Qed.

Lemma read_pos (sel : list slice) : forall cs i,
  Forall (fun n => 0 < n)%nat cs -> length cs = length sel ->
  in_shape (sel_shape sel) i = true ->
  vadd (box_lo (chunk_selection sel cs (chunk_of sel cs i)))
       (vsub i (box_lo (out_selection sel cs (chunk_of sel cs i))))
  = offset_of sel cs i.
Proof.
  induction sel as [|[a b] sel IH]; intros cs i Hcs Hl Hi.
  - apply in_shape_nil_inv in Hi as ->. destruct cs; reflexivity.
  - destruct cs as [|n cs]; [discriminate|].
    apply in_shape_cons_inv in Hi as (x & i' & -> & Hx & Hi).
    inversion Hcs as [|? ? Hn Hcs']; subst. simpl in Hl.
    cbn [chunk_of chunk_selection out_selection offset_of box_lo map
         vadd vsub zip_with dim_chunk_sel dim_out_sel fst].
    unfold vadd, vsub, box_lo in IH.
    f_equal; [apply (axis_read_pos a b n x); simpl in Hx; lia|].
    apply IH; auto.
Qed.

Lemma write_pos (sel : list slice) : forall cs i,
  Forall (fun n => 0 < n)%nat cs -> length cs = length sel ->
  in_shape (sel_shape sel) i = true ->
  let c := chunk_of sel cs i in
  let j := offset_of sel cs i in
  in_box (chunk_selection sel cs c) j = true /\ in_shape cs j = true
  /\ vadd (box_lo (out_selection sel cs c)) (vsub j (box_lo (chunk_selection sel cs c))) = i.
Proof.
  induction sel as [|[a b] sel IH]; intros cs i Hcs Hl Hi c j; subst c j.
  - apply in_shape_nil_inv in Hi as ->. destruct cs; [|discriminate].
    split; [|split]; reflexivity.
  - destruct cs as [|n cs]; [discriminate|].
    apply in_shape_cons_inv in Hi as (x & i' & -> & Hx & Hi).
    inversion Hcs as [|? ? Hn Hcs']; subst. simpl in Hl.
    destruct (axis_write_pos a b n x) as (H1 & H2 & H3); [lia|simpl in Hx; lia|].
    destruct (IH cs i') as (H4 & H5 & H6); auto.
    cbn [chunk_of chunk_selection out_selection offset_of box_lo map
         vadd vsub zip_with dim_chunk_sel dim_out_sel fst in_box].
    rewrite in_shape_cons. unfold vadd, vsub, box_lo in H6.
    rewrite H1, H4, H5, H3, H6. rewrite (proj2 (Nat.ltb_lt _ _) H2).
    split; [|split]; reflexivity.
Qed.

Lemma chunk_of_in (sel : list slice) : forall cs i,
  Forall (fun n => 0 < n)%nat cs -> length cs = length sel ->
  in_shape (sel_shape sel) i = true ->
  In (chunk_of sel cs i) (sel_chunks sel cs).
Proof.
  unfold sel_chunks. intros cs i Hcs Hl Hi. apply cartesian_In.
  revert cs i Hcs Hl Hi.
  induction sel as [|[a b] sel IH]; intros cs i Hcs Hl Hi.
  - apply in_shape_nil_inv in Hi as ->. destruct cs; [constructor|discriminate].
  - destruct cs as [|n cs]; [discriminate|].
    apply in_shape_cons_inv in Hi as (x & i' & -> & Hx & Hi).
    inversion Hcs as [|? ? Hn Hcs']; subst. simpl in Hl.
    cbn [chunk_of zip_with fst snd]. constructor.
    + apply axis_chunk_in_range; [lia|simpl in Hx; lia].
    + apply IH; auto.
Qed.

Lemma sel_chunks_length (sel : list slice) (cs : list nat) (c : coord) :
  length cs = length sel -> In c (sel_chunks sel cs) -> length c = length sel.
Proof.
  unfold sel_chunks. intros Hl Hc. apply cartesian_In, Forall2_length in Hc.
  rewrite Hc, length_zip_with. lia.
Qed.

Lemma sel_chunks_NoDup (sel : list slice) (cs : list nat) :
  NoDup (sel_chunks sel cs).
Proof.
  unfold sel_chunks. apply cartesian_NoDup. revert cs.
  induction sel as [|s sel IH]; intros [|n cs]; simpl; constructor; auto.
  unfold dim_chunks. apply NoDup_ListNoDup, seq_NoDup.
Qed.

Lemma total_slice_lo (csel : list slice) : forall cs j,
  is_total_slice csel cs = true -> in_shape cs j = true ->
  vsub j (box_lo csel) = j.
Proof.
  induction csel as [|[a b] csel IH]; intros cs j Ht Hj.
  - destruct cs; [|discriminate]. apply in_shape_nil_inv in Hj as ->. reflexivity.
  - destruct cs as [|n cs]; [discriminate|].
    apply in_shape_cons_inv in Hj as (x & j' & -> & Hx & Hj).
    simpl in Ht. apply andb_true_iff in Ht as [Ht Ht'].
    apply andb_true_iff in Ht as [Ha _]. apply Nat.eqb_eq in Ha as ->.
    cbn [box_lo map vsub zip_with fst]. unfold vsub, box_lo in IH.
    rewrite Nat.sub_0_r, (IH cs j'); auto.
Qed.

Lemma total_slice_box (csel : list slice) : forall cs j,
  is_total_slice csel cs = true -> in_shape cs j = true -> in_box csel j = true.
Proof.
  induction csel as [|[a b] csel IH]; intros cs j Ht Hj.
  - destruct cs; [|discriminate]. apply in_shape_nil_inv in Hj as ->. reflexivity.
  - destruct cs as [|n cs]; [discriminate|].
    apply in_shape_cons_inv in Hj as (x & j' & -> & Hx & Hj).
    simpl in Ht. apply andb_true_iff in Ht as [Ht Ht'].
    apply andb_true_iff in Ht as [Ha Hb].
    apply Nat.eqb_eq in Ha as ->. apply Nat.eqb_eq in Hb as ->.
    cbn [in_box]. rewrite (IH cs j'), andb_true_r by auto.
    apply andb_true_iff. split; [reflexivity|apply Nat.ltb_lt; lia].
Qed.

End SelFacts.

Module EngineFacts.
Import Engine IndexFacts SelFacts.

Lemma valid_selection_length (shape : list nat) (sel : list slice) :
  valid_selection shape sel = true -> length sel = length shape.
Proof.
  revert sel. induction shape as [|n shape IH]; intros [|[a b] sel] H;
    simpl in *; try discriminate; auto.
  apply andb_true_iff in H as [_ H]. f_equal. auto.
Qed.

Lemma indexer_In (sel : list slice) (cs : list nat) c csel osel :
  In (c, csel, osel) (indexer sel cs) <->
  In c (sel_chunks sel cs) /\ csel = chunk_selection sel cs c
  /\ osel = out_selection sel cs c.
Proof.
  unfold indexer. rewrite in_map_iff. split.
  - intros (c' & Heq & Hc). injection Heq as -> -> ->. auto.
  - intros (Hc & -> & ->). eauto.
Qed.

Lemma indexer_keys (sel : list slice) (cs : list nat) :
  map (fun t => t.1.1) (indexer sel cs) = sel_chunks sel cs.
Proof.
  unfold indexer. induction (sel_chunks sel cs); simpl; f_equal; auto.
Qed.

Section Chunks.
Variable V : Type.
Context `{EqDecision V}.
Variable zero : V.
Variable shape chunk_shape : list nat.
Variable fill_value : V.
Variable sharded : bool.
Variable B : Type.
Variable encode : (coord -> V) -> B.
Variable decode : B -> option (coord -> V).

Local Abbreviation all_fill := (all_fill V chunk_shape fill_value).
Local Abbreviation content := (content V fill_value B decode).
Local Abbreviation decodable := (decodable V B decode).
Local Abbreviation wcs := (write_chunk_to_store V chunk_shape fill_value B encode).
Local Abbreviation write_chunk := (write_chunk V chunk_shape fill_value sharded B encode decode).
Local Abbreviation write_all := (write_all V chunk_shape fill_value sharded B encode decode).
Local Abbreviation read_chunk := (read_chunk V fill_value sharded B decode).
Local Abbreviation read_all := (read_all V fill_value sharded B decode).

Lemma all_fill_spec (ch : coord -> V) :
  all_fill ch = true <-> forall j, in_shape chunk_shape j = true -> ch j = fill_value.
Proof.
  unfold Engine.all_fill. rewrite forallb_forall. split.
  - intros H j Hj. apply cells_In in Hj. apply H in Hj.
    apply bool_decide_eq_true in Hj. exact Hj.
  - intros H j Hj. apply cells_In in Hj. apply bool_decide_eq_true. auto.
Qed.

Lemma all_fill_ext (ch ch' : coord -> V) :
  (forall j, in_shape chunk_shape j = true -> ch j = ch' j) ->
  all_fill ch = all_fill ch'.
Proof.
  intros Hext. apply eq_true_iff_eq. rewrite !all_fill_spec. split.
  - intros H j Hj. rewrite <- Hext by exact Hj. auto.
  - intros H j Hj. rewrite Hext by exact Hj. auto.
Qed.

Lemma content_lookup (st st' : gmap coord B) (c : coord) :
  st' !! c = st !! c -> content st' c = content st c.
Proof. unfold Engine.content. intros ->. reflexivity. Qed.

Lemma decodable_content (st : gmap coord B) (c : coord) :
  decodable st -> is_Some (content st c).
Proof.
  unfold Engine.content. intros Hd. destruct (st !! c) eqn:E; eauto.
Qed.

Lemma wcs_other (st : gmap coord B) (c c' : coord) (ch : coord -> V) :
  c' <> c -> wcs st c ch !! c' = st !! c'.
Proof.
  intros Hne. unfold write_chunk_to_store. destruct (all_fill ch).
  - apply lookup_delete_ne. auto.
  - apply lookup_insert_ne. auto.
Qed.

(** Every write path ends in [_write_chunk_to_store]'s choice. *)
Lemma write_chunk_store (st st1 : gmap coord B) (v : wvalue V) c csel osel :
  write_chunk st v (c, csel, osel) = Some st1 -> exists ch, st1 = wcs st c ch.
Proof.
  unfold Engine.write_chunk. destruct (is_total_slice csel chunk_shape).
  - intros H. injection H as <-. eauto.
  - destruct sharded.
    + destruct (value_sub V v osel) as [sub|]; [|discriminate].
      unfold sharding_encode_partial.
      destruct (match st !! c with Some b => decode b | None => Some (fun _ => fill_value) end)
        as [a|]; [|discriminate].
      intros H. injection H as <-. eexists. reflexivity.
    + destruct (decode_chunk V B decode st c); [|discriminate].
      destruct (value_sub V v osel); [|discriminate].
      intros H. injection H as <-. eauto.
Qed.

Hypothesis codec_roundtrip : forall ch, exists ch',
  decode (encode ch) = Some ch'
  /\ forall j, in_shape chunk_shape j = true -> ch' j = ch j.

Lemma content_wcs (st : gmap coord B) (c : coord) (ch : coord -> V) :
  exists ch', content (wcs st c ch) c = Some ch'
  /\ forall j, in_shape chunk_shape j = true -> ch' j = ch j.
Proof.
  unfold write_chunk_to_store, Engine.content.
  destruct (all_fill ch) eqn:Ef.
  - rewrite lookup_delete_eq. eexists. split; [reflexivity|].
    intros j Hj. symmetry. apply all_fill_spec; auto.
  - rewrite lookup_insert_eq. apply codec_roundtrip.
Qed.

Lemma wcs_decodable (st : gmap coord B) (c : coord) (ch : coord -> V) :
  decodable st -> decodable (wcs st c ch).
Proof.
  intros Hd c' b. destruct (decide (c' = c)) as [->|Hne].
  - unfold write_chunk_to_store. destruct (all_fill ch).
    + rewrite lookup_delete_eq. discriminate.
    + rewrite lookup_insert_eq. intros H. injection H as <-.
      destruct (codec_roundtrip ch) as (ch' & -> & _). eauto.
  - rewrite wcs_other by exact Hne. apply Hd.
Qed.

Lemma wcs_no_fill (st : gmap coord B) (c : coord) (ch : coord -> V) :
  no_fill_chunk V chunk_shape fill_value B decode st ->
  no_fill_chunk V chunk_shape fill_value B decode (wcs st c ch).
Proof.
  intros Hn c' b a. destruct (decide (c' = c)) as [->|Hne].
  - unfold write_chunk_to_store. destruct (all_fill ch) eqn:Ef.
    + rewrite lookup_delete_eq. discriminate.
    + rewrite lookup_insert_eq. intros H. injection H as <-.
      destruct (codec_roundtrip ch) as (ch' & Hd & Hag). rewrite Hd.
      intros H. injection H as <-. rewrite <- Ef. apply all_fill_ext. exact Hag.
  - rewrite wcs_other by exact Hne. apply Hn.
Qed.

Lemma write_chunk_ok (st : gmap coord B) (a : ndarray V) c csel osel :
  decodable st ->
  exists ch, write_chunk st (WArray a) (c, csel, osel) = Some (wcs st c ch)
  /\ forall j, in_shape chunk_shape j = true -> in_box csel j = true ->
     ch j = nd_get a (vadd (box_lo osel) (vsub j (box_lo csel))).
Proof.
  intros Hd. unfold Engine.write_chunk.
  destruct (is_total_slice csel chunk_shape) eqn:Ht.
  - eexists. split; [reflexivity|]. intros j Hj _. unfold subarray.
    rewrite (total_slice_lo csel chunk_shape j Ht Hj). reflexivity.
  - destruct sharded.
    + simpl value_sub. unfold sharding_encode_partial.
      assert (Hb : exists a0, match st !! c with Some b => decode b
                               | None => Some (fun _ => fill_value) end = Some a0).
      { destruct (st !! c) eqn:E; [|eauto]. destruct (Hd c b E) as [a0 Ha0]. eauto. }
      destruct Hb as [a0 ->]. eexists. split; [reflexivity|].
      intros j _ Hj. cbv beta. rewrite Hj. reflexivity.
    + unfold decode_chunk. simpl value_sub.
      assert (Hb : exists tmp, match st !! c with
                               | Some b => match decode b with
                                           | Some a => Some (Some a) | None => None end
                               | None => Some None end = Some tmp).
      { destruct (st !! c) eqn:E; [|eauto]. destruct (Hd c b E) as [a0 ->]. eauto. }
      destruct Hb as [tmp ->]. eexists. split; [reflexivity|].
      intros j _ Hj. cbv beta. rewrite Hj. reflexivity.
Qed.

Lemma write_all_ok (st : gmap coord B) (a : ndarray V)
  (ts : list (coord * list slice * list slice)) :
  decodable st -> NoDup (map (fun t => t.1.1) ts) ->
  exists st', write_all st (WArray a) ts = (st', true) /\ decodable st'
  /\ (forall c, ~ In c (map (fun t => t.1.1) ts) -> st' !! c = st !! c)
  /\ forall c csel osel, In (c, csel, osel) ts ->
     exists ch, content st' c = Some ch
     /\ forall j, in_shape chunk_shape j = true -> in_box csel j = true ->
        ch j = nd_get a (vadd (box_lo osel) (vsub j (box_lo csel))).
Proof.
  revert st. induction ts as [|[[c csel] osel] ts IH]; intros st Hd Hnd.
  - exists st. split; [reflexivity|]. split; [exact Hd|]. split; [auto|].
    intros ??? [].
  - simpl in Hnd. apply NoDup_cons in Hnd as [Hc Hnd].
    destruct (write_chunk_ok st a c csel osel Hd) as (ch & Hw & Hch).
    destruct (IH (wcs st c ch) (wcs_decodable st c ch Hd) Hnd)
      as (st' & Hw' & Hd' & Hkeep & Hcont).
    exists st'. cbn [Engine.write_all map]. rewrite Hw. split; [exact Hw'|]. split; [exact Hd'|]. split.
    + intros c' Hc'. simpl in Hc'. rewrite Hkeep by tauto. apply wcs_other. intros ->. tauto.
    + intros c' csel' osel' [Heq|Hin].
      * injection Heq as <- <- <-.
        destruct (content_wcs st c ch) as (ch' & Hc' & Hag).
        exists ch'. split.
        -- rewrite <- Hc'. apply content_lookup. apply Hkeep.
           intros Hin. apply Hc. apply list_elem_of_In. exact Hin.
        -- intros j Hj Hb. rewrite Hag by exact Hj. auto.
      * auto.
Qed.

Lemma read_chunk_content (st : gmap coord B) c csel osel out out1 :
  read_chunk st (c, csel, osel) out = Some out1 ->
  exists ch, content st c = Some ch /\ out1 = assign V out osel (subarray V ch csel).
Proof.
  unfold Engine.read_chunk, Engine.content, sharding_decode_partial, decode_chunk.
  destruct sharded; destruct (st !! c); try destruct (decode b);
    intros H; try discriminate; injection H as <-; eauto.
Qed.

Lemma read_chunk_some (st : gmap coord B) t out :
  is_Some (content st t.1.1) -> exists out1, read_chunk st t out = Some out1.
Proof.
  destruct t as [[c csel] osel]. simpl.
  unfold Engine.read_chunk, Engine.content, sharding_decode_partial, decode_chunk.
  intros [ch Hch]. destruct sharded; destruct (st !! c); try destruct (decode b);
    try discriminate; eauto.
Qed.

Lemma read_all_some (st : gmap coord B) ts out :
  (forall t, In t ts -> is_Some (content st t.1.1)) ->
  exists out', read_all st ts out = Some out'.
Proof.
  revert out. induction ts as [|t ts IH]; intros out H; simpl; [eauto|].
  destruct (read_chunk_some st t out (H t (or_introl eq_refl))) as [out1 ->].
  apply IH. intros t' Ht'. apply H. right. exact Ht'.
Qed.

Lemma read_all_outside (st : gmap coord B) ts out out' i :
  read_all st ts out = Some out' ->
  (forall t, In t ts -> in_box t.2 i = false) -> out' i = out i.
Proof.
  revert out. induction ts as [|[[c csel] osel] ts IH]; intros out Hr Hi; cbn [Engine.read_all] in Hr.
  - congruence.
  - destruct (read_chunk st (c, csel, osel) out) as [out1|] eqn:E; [|discriminate].
    apply read_chunk_content in E as (ch & _ & ->).
    rewrite (IH _ Hr) by (intros t Ht; apply Hi; right; exact Ht). unfold assign.
    pose proof (Hi (c, csel, osel) (or_introl eq_refl)) as Hb. simpl in Hb. rewrite Hb. reflexivity.
Qed.

Lemma read_all_at (st : gmap coord B) ts out out' i c0 csel0 osel0 ch :
  read_all st ts out = Some out' -> In (c0, csel0, osel0) ts ->
  in_box osel0 i = true ->
  (forall t, In t ts -> in_box t.2 i = true -> t = (c0, csel0, osel0)) ->
  content st c0 = Some ch ->
  out' i = ch (vadd (box_lo csel0) (vsub i (box_lo osel0))).
Proof.
  revert out. induction ts as [|[[c csel] osel] ts IH]; intros out Hr Hin Hb Hu Hc;
    cbn [Engine.read_all] in Hr; [destruct Hin|].
  destruct (read_chunk st (c, csel, osel) out) as [out1|] eqn:E; [|discriminate].
  apply read_chunk_content in E as (ch1 & Hc1 & ->).
  destruct (in_box osel i) eqn:Eb.
  - pose proof (Hu _ (or_introl eq_refl) Eb) as Heq. injection Heq as -> -> ->.
    rewrite Hc in Hc1. injection Hc1 as <-.
    destruct (in_dec (fun x y => decide (x = y)) (c0, csel0, osel0) ts) as [Hin'|Hnin].
    + apply (IH _ Hr Hin' Hb); [intros t Ht; apply Hu; right; exact Ht|exact Hc].
    + rewrite (read_all_outside st ts _ out' i Hr).
      * unfold assign. rewrite Hb. reflexivity.
      * intros t Ht. destruct (in_box t.2 i) eqn:Et; [|reflexivity].
        exfalso. apply Hnin. rewrite <- (Hu t (or_intror Ht) Et). exact Ht.
  - destruct Hin as [Heq|Hin'].
    + injection Heq as -> -> ->. congruence.
    + apply (IH _ Hr Hin' Hb); [intros t Ht; apply Hu; right; exact Ht|exact Hc].
Qed.

End Chunks.
End EngineFacts.

Module RoundTrip.
Import Engine IndexFacts SelFacts EngineFacts.

Section RoundTrip.
Variable V : Type.
Context `{EqDecision V}.
Variable zero : V.
Variable shape chunk_shape : list nat.
Variable fill_value : V.
Variable sharded : bool.
Variable B : Type.
Variable encode : (coord -> V) -> B.
Variable decode : B -> option (coord -> V).

(** C1: writing an array [a] of the selection's shape into a valid
    selection and reading the selection back gives [a] again. The
    codec reproduces every chunk on its [chunk_shape] cells, and every
    chunk already stored decodes. *)
Theorem set_get_roundtrip (st : gmap coord B) (sel : list slice) (a : ndarray V) :
  Forall (fun n => 0 < n)%nat chunk_shape ->
  length chunk_shape = length shape ->
  (forall ch, exists ch', decode (encode ch) = Some ch'
     /\ forall j, in_shape chunk_shape j = true -> ch' j = ch j) ->
  decodable V B decode st ->
  valid_selection shape sel = true ->
  nd_shape a = sel_shape sel ->
  exists st' out,
    set_async V shape chunk_shape fill_value sharded B encode decode st sel (WArray a)
      = (st', true)
    /\ get_async V zero shape chunk_shape fill_value sharded B decode st' sel = Some out
    /\ nd_equal out a.
Proof.
  intros Hcs Hlen Hcodec Hd Hv Ha.
  assert (Hl : length chunk_shape = length sel)
    by (rewrite (valid_selection_length shape sel Hv); exact Hlen).
  destruct (write_all_ok V chunk_shape fill_value sharded B encode decode Hcodec
              st a (indexer sel chunk_shape) Hd)
    as (st' & Hw & Hd' & _ & Hcont).
  { rewrite indexer_keys. apply sel_chunks_NoDup. }
  destruct (read_all_some V fill_value sharded B decode st' (indexer sel chunk_shape)
              (fun _ => zero)) as [out Hr].
  { intros t _. apply decodable_content. exact Hd'. }
  exists st', (mkNd (sel_shape sel) out).
  unfold set_async, get_async. rewrite Hv.
  destruct (decide (nd_shape a = sel_shape sel)) as [_|Hne]; [|contradiction].
  rewrite Hw, Hr. split; [reflexivity|]. split; [reflexivity|].
  split; [simpl; symmetry; exact Ha|]. simpl. intros i Hi.
  set (c0 := chunk_of sel chunk_shape i).
  assert (Hc0 : In c0 (sel_chunks sel chunk_shape)) by (apply chunk_of_in; auto).
  assert (Ht0 : In (c0, chunk_selection sel chunk_shape c0, out_selection sel chunk_shape c0)
                   (indexer sel chunk_shape)) by (apply indexer_In; auto).
  destruct (Hcont _ _ _ Ht0) as (ch & Hch & Hval).
  destruct (write_pos sel chunk_shape i Hcs Hl Hi) as (Hb & Hs & Heq).
  rewrite (read_all_at V fill_value sharded B decode st' _ _ _ i _ _ _ ch Hr Ht0);
    [| apply out_box_iff; auto; apply (sel_chunks_length sel chunk_shape); auto
     | | exact Hch].
  - unfold c0 in *. rewrite (read_pos sel chunk_shape i Hcs Hl Hi).
    rewrite (Hval _ Hs Hb). rewrite Heq. reflexivity.
  - intros [[c csel] osel] Ht Hin. apply indexer_In in Ht as (Hc & -> & ->).
    simpl in Hin. apply out_box_iff in Hin; auto.
    + subst c. reflexivity.
    + apply (sel_chunks_length sel chunk_shape); auto.
Qed.

End RoundTrip.

Lemma set_get_roundtrip_witness :
  exists st' out,
    set_async Z [4%nat; 4%nat] [2%nat; 2%nat] 0%Z false (coord -> Z) (fun ch => ch) Some
      ∅ [(1, 3); (0, 3)]%nat
      (WArray (mkNd [2%nat; 3%nat]
                 (fun i => match i with [x; y] => Z.of_nat (3 * x + y + 1) | _ => 0%Z end)))
      = (st', true)
    /\ get_async Z 0%Z [4%nat; 4%nat] [2%nat; 2%nat] 0%Z false (coord -> Z) Some st'
         [(1, 3); (0, 3)]%nat = Some out
    /\ nd_equal out (mkNd [2%nat; 3%nat]
                      (fun i => match i with [x; y] => Z.of_nat (3 * x + y + 1) | _ => 0%Z end)).
Proof.
  apply set_get_roundtrip.
  - constructor; [lia|constructor; [lia|constructor]].
  - reflexivity.
  - intros ch. exists ch. split; reflexivity.
  - intros c b H. rewrite lookup_empty in H. discriminate.
  - reflexivity.
  - reflexivity.
Defined.

End RoundTrip.

Module Elision.
Import Engine IndexFacts SelFacts EngineFacts.

Section Elision.
Variable V : Type.
Context `{EqDecision V}.
Variable shape chunk_shape : list nat.
Variable fill_value : V.
Variable sharded : bool.
Variable B : Type.
Variable encode : (coord -> V) -> B.
Variable decode : B -> option (coord -> V).

Local Abbreviation no_fill_chunk := (no_fill_chunk V chunk_shape fill_value B decode).
Local Abbreviation wcs := (write_chunk_to_store V chunk_shape fill_value B encode).

Hypothesis codec_roundtrip : forall ch, exists ch',
  decode (encode ch) = Some ch'
  /\ forall j, in_shape chunk_shape j = true -> ch' j = ch j.

Lemma write_chunk_no_fill (st st1 : gmap coord B) (v : wvalue V) t :
  no_fill_chunk st ->
  write_chunk V chunk_shape fill_value sharded B encode decode st v t = Some st1 ->
  no_fill_chunk st1.
Proof.
  destruct t as [[c csel] osel]. intros Hn Hw.
  apply write_chunk_store in Hw as [ch ->].
  apply wcs_no_fill; assumption.
Qed.

Lemma write_all_no_fill (st : gmap coord B) (v : wvalue V) ts :
  no_fill_chunk st ->
  no_fill_chunk (write_all V chunk_shape fill_value sharded B encode decode st v ts).1.
Proof.
  revert st. induction ts as [|t ts IH]; intros st Hn; simpl; [exact Hn|].
  destruct (write_chunk V chunk_shape fill_value sharded B encode decode st v t)
    as [st1|] eqn:E; [|exact Hn].
  apply IH. apply (write_chunk_no_fill st st1 v t Hn E).
Qed.

Lemma set_async_no_fill (st : gmap coord B) sel (v : wvalue V) :
  no_fill_chunk st ->
  no_fill_chunk (set_async V shape chunk_shape fill_value sharded B encode decode st sel v).1.
Proof.
  intros Hn. unfold set_async.
  destruct (valid_selection shape sel); [|exact Hn].
  destruct v as [x|a]; [apply write_all_no_fill; exact Hn|].
  destruct (decide _); [apply write_all_no_fill|]; exact Hn.
Qed.

(** C2: [_write_chunk_to_store] deletes the key of an all-fill chunk
    (and stores the encoded chunk otherwise); every write path,
    whole-chunk or partial, ends in it; so a sequence of writes keeps
    every stored chunk from decoding to all fill. *)
Theorem fill_chunks_elided :
  (forall st c ch, all_fill V chunk_shape fill_value ch = true -> wcs st c ch !! c = None)
  /\ (forall st c ch, all_fill V chunk_shape fill_value ch = false ->
        wcs st c ch !! c = Some (encode ch))
  /\ (forall st v c csel osel st1,
        write_chunk V chunk_shape fill_value sharded B encode decode st v (c, csel, osel)
          = Some st1 -> exists ch, st1 = wcs st c ch)
  /\ (forall st ws, no_fill_chunk st ->
        no_fill_chunk (set_many V shape chunk_shape fill_value sharded B encode decode st ws)).
Proof.
  split; [|split; [|split]].
  - intros st c ch Hf. unfold write_chunk_to_store. rewrite Hf. apply lookup_delete_eq.
  - intros st c ch Hf. unfold write_chunk_to_store. rewrite Hf. apply lookup_insert_eq.
  - intros st v c csel osel st1. apply write_chunk_store.
  - intros st ws. revert st. induction ws as [|[sel v] ws IH]; intros st Hn; simpl.
    + exact Hn.
    + apply IH. apply set_async_no_fill. exact Hn.
Qed.

End Elision.

Lemma fill_chunks_elided_witness :
  (forall st c ch, all_fill Z [2%nat; 2%nat] 0%Z ch = true ->
     write_chunk_to_store Z [2%nat; 2%nat] 0%Z (coord -> Z) (fun ch => ch) st c ch !! c = None)
  /\ (forall st c ch, all_fill Z [2%nat; 2%nat] 0%Z ch = false ->
        write_chunk_to_store Z [2%nat; 2%nat] 0%Z (coord -> Z) (fun ch => ch) st c ch !! c
        = Some ch)
  /\ (forall st v c csel osel st1,
        write_chunk Z [2%nat; 2%nat] 0%Z false (coord -> Z) (fun ch => ch) Some st v
          (c, csel, osel) = Some st1 ->
        exists ch, st1 = write_chunk_to_store Z [2%nat; 2%nat] 0%Z (coord -> Z)
                           (fun ch => ch) st c ch)
  /\ (forall st ws, no_fill_chunk Z [2%nat; 2%nat] 0%Z (coord -> Z) Some st ->
        no_fill_chunk Z [2%nat; 2%nat] 0%Z (coord -> Z) Some
          (set_many Z [4%nat; 4%nat] [2%nat; 2%nat] 0%Z false (coord -> Z) (fun ch => ch)
             Some st ws)).
Proof.
  apply fill_chunks_elided. intros ch. exists ch. split; reflexivity.
Defined.

End Elision.

Module AbsentChunks.
Import Engine IndexFacts SelFacts EngineFacts.

Lemma store_get_absent (m : LocalStore.fs) (key : LocalStore.path) byte_range :
  m !! key = None \/ m !! key = Some LocalStore.NDir ->
  LocalStore.get_async m key byte_range = inl None.
Proof.
  intros Hk. unfold LocalStore.get_async, LocalStore.cat_file, LocalStore.open_rb,
    LocalStore.resolve.
  destruct byte_range as [[s e]|];
    destruct (LocalStore.parent_error m [] key); try reflexivity;
    destruct Hk as [-> | ->]; reflexivity.
Qed.

Section Absent.
Variable V : Type.
Variable zero : V.
Variable shape chunk_shape : list nat.
Variable fill_value : V.
Variable sharded : bool.
Variable B : Type.
Variable decode : B -> option (coord -> V).

(** C3: the local store answers absent for a missing key or a
    directory; an absent chunk is read as fill without error; and a
    read of a valid selection completes, every element whose chunk is
    absent being the fill value. *)
Theorem absent_chunks_read_as_fill :
  (forall (m : LocalStore.fs) key byte_range,
      m !! key = None \/ m !! key = Some LocalStore.NDir ->
      LocalStore.get_async m key byte_range = inl None)
  /\ (forall st c csel osel out, st !! c = None ->
        read_chunk V fill_value sharded B decode st (c, csel, osel) out
        = Some (assign V out osel (fun _ => fill_value)))
  /\ (forall st sel,
        Forall (fun n => 0 < n)%nat chunk_shape ->
        length chunk_shape = length shape ->
        decodable V B decode st -> valid_selection shape sel = true ->
        exists out,
          get_async V zero shape chunk_shape fill_value sharded B decode st sel = Some out
          /\ nd_shape out = sel_shape sel
          /\ forall i, in_shape (sel_shape sel) i = true ->
             st !! chunk_of sel chunk_shape i = None -> nd_get out i = fill_value).
Proof.
  split; [|split].
  - exact store_get_absent.
  - intros st c csel osel out Hc.
    unfold read_chunk, sharding_decode_partial, decode_chunk. rewrite Hc.
    destruct sharded; reflexivity.
  - intros st sel Hcs Hlen Hd Hv.
    assert (Hl : length chunk_shape = length sel)
      by (rewrite (valid_selection_length shape sel Hv); exact Hlen).
    destruct (read_all_some V fill_value sharded B decode st (indexer sel chunk_shape)
                (fun _ => zero)) as [out Hr].
    { intros t _. apply decodable_content. exact Hd. }
    exists (mkNd (sel_shape sel) out). unfold get_async. rewrite Hv, Hr.
    split; [reflexivity|]. split; [reflexivity|]. simpl. intros i Hi Habs.
    set (c0 := chunk_of sel chunk_shape i) in *.
    assert (Hc0 : In c0 (sel_chunks sel chunk_shape)) by (apply chunk_of_in; auto).
    assert (Ht0 : In (c0, chunk_selection sel chunk_shape c0,
                      out_selection sel chunk_shape c0) (indexer sel chunk_shape))
      by (apply indexer_In; auto).
    rewrite (read_all_at V fill_value sharded B decode st _ _ _ i _ _ _
               (fun _ => fill_value) Hr Ht0).
    + reflexivity.
    + apply out_box_iff; auto. apply (sel_chunks_length sel chunk_shape); auto.
    + intros [[c csel] osel] Ht Hin. apply indexer_In in Ht as (Hc & -> & ->).
      simpl in Hin. apply out_box_iff in Hin; auto.
      * subst c. reflexivity.
      * apply (sel_chunks_length sel chunk_shape); auto.
    + unfold content. rewrite Habs. reflexivity.
Qed.

End Absent.

Lemma absent_chunks_read_as_fill_witness :
  exists out,
    get_async Z 0%Z [4%nat; 4%nat] [2%nat; 2%nat] 7%Z false (coord -> Z) Some ∅
      [(1, 3); (0, 3)]%nat = Some out
    /\ nd_shape out = sel_shape [(1, 3); (0, 3)]%nat
    /\ forall i, in_shape (sel_shape [(1, 3); (0, 3)]%nat) i = true ->
       (∅ : gmap coord (coord -> Z)) !! chunk_of [(1, 3); (0, 3)]%nat [2%nat; 2%nat] i = None ->
       nd_get out i = 7%Z.
Proof.
  apply (proj2 (proj2 (absent_chunks_read_as_fill Z 0%Z [4%nat; 4%nat] [2%nat; 2%nat] 7%Z
                         false (coord -> Z) Some))).
  - constructor; [lia|constructor; [lia|constructor]].
  - reflexivity.
  - intros c b H. rewrite lookup_empty in H. discriminate.
  - reflexivity.
Defined.

End AbsentChunks.

Module ResizeFacts.
Import Meta Resize IndexFacts AxisFacts.

Lemma fold_deletes (gone : list Engine.coord) (st : store) (k : key) :
  delete_chunks st gone !! k
  = if bool_decide (k ∈ map inr gone) then None else st !! k.
Proof.
  unfold delete_chunks.
  revert st. induction gone as [|c gone IH]; intros st; simpl; [reflexivity|].
  rewrite IH. destruct (decide (k = inr c)) as [->|Hne].
  - rewrite lookup_delete_eq.
    rewrite (bool_decide_eq_true_2 (inr c ∈ inr c :: map inr gone)) by set_solver.
    destruct (bool_decide _); reflexivity.
  - rewrite lookup_delete_ne by congruence.
    destruct (bool_decide (k ∈ map inr gone)) eqn:E.
    + rewrite bool_decide_eq_true_2; [reflexivity|].
      apply bool_decide_eq_true in E. set_solver.
    + rewrite bool_decide_eq_false_2; [reflexivity|].
      apply bool_decide_eq_false in E. set_solver.
Qed.

Lemma in_map_inr (gone : list Engine.coord) (c : Engine.coord) :
  (inr c : key) ∈ map inr gone <-> In c gone.
Proof.
  rewrite list_elem_of_In, in_map_iff. split.
  - intros (c' & Heq & Hin). injection Heq as ->. exact Hin.
  - intros Hin. eauto.
Qed.

Lemma inl_not_in_map (gone : list Engine.coord) (u : unit) :
  ~ (inl u : key) ∈ map inr gone.
Proof.
  rewrite list_elem_of_In, in_map_iff. intros (c' & Heq & _). discriminate.
Qed.

Lemma fully_outside_not_in_grid (ns cs : list nat) (c : Engine.coord) :
  Forall (fun m => 0 < m)%nat cs -> fully_outside ns cs c = true ->
  ~ In c (all_chunk_coords ns cs).
Proof.
  unfold all_chunk_coords. rewrite cartesian_In. revert cs c.
  induction ns as [|n ns IH]; intros cs c Hcs Hout Hin; [discriminate|].
  destruct cs as [|m cs]; [discriminate|]. destruct c as [|k c]; [discriminate|].
  inversion Hcs as [|? ? Hm Hcs']; subst.
  simpl in Hout, Hin. inversion Hin as [|? ? ? ? Hk Hin']; subst.
  apply orb_true_iff in Hout as [Hout|Hout].
  - apply Nat.leb_le in Hout. apply (axis_outside_grid n m k Hm Hout Hk).
  - apply (IH cs c Hcs' Hout Hin').
Qed.

(** The chunks [resize_async] deletes are those of the old grid missing
    from the new grid. *)
Lemma resize_ops_gone (md : ArrayMetadata) (ns : list nat) gone md1 :
  resize_ops md ns = Some (gone, md1) ->
  length ns = length (md_shape md) /\ md1 = with_shape md ns
  /\ forall c, In c gone <-> In c (all_chunk_coords (md_shape md) (md_chunk_shape md))
                         /\ ~ In c (all_chunk_coords ns (md_chunk_shape md)).
Proof.
  unfold resize_ops.
  destruct (negb (length ns =? length (md_shape md))%nat) eqn:Er; [discriminate|].
  intros [= <- <-].
  split; [apply negb_false_iff, Nat.eqb_eq in Er; exact Er|]. split; [reflexivity|].
  intros c. rewrite <- list_elem_of_In. split.
  - intros Hin. apply list_elem_of_filter in Hin as [Hp Hin].
    apply Is_true_true, negb_true_iff, bool_decide_eq_false in Hp.
    rewrite list_elem_of_In in Hin, Hp. auto.
  - intros [Hin Hn]. apply list_elem_of_filter. split.
    + apply Is_true_true, negb_true_iff, bool_decide_eq_false.
      rewrite list_elem_of_In. exact Hn.
    + apply list_elem_of_In. exact Hin.
Qed.

(** [create] then a write of chunk 3 at shape [8] (chunks of 2), then
    [create(exists_ok=True)] at shape [4] over the same store. The
    stored chunk stands for the encoded chunk a non-fill write of index
    6 leaves under key [c/3]. *)
Definition args8 : create_args :=
  mkArgs [8%nat] int32 [2%nat] (PInt 0) (DefaultEncoding "/") None None None false.

Definition args4 : create_args :=
  mkArgs [4%nat] int32 [2%nat] (PInt 0) (DefaultEncoding "/") None None None true.

(** C6 (counterexample). After [create] at shape [8], a write that
    stores chunk 3, and [create(exists_ok=True)] at shape [4], the array
    has shape [4] and chunk 3 lies outside its grid. [resize([2])]
    completes, yet the key of chunk 3, fully outside the new shape,
    is still there. *)
Theorem resize_keeps_stale_chunk :
  exists st1 md1 st3 md3 st4 md4,
    create_async ∅ args8 = (st1, inl md1)
    /\ create_async (<[inr [3%nat] := OBlob [Byte.x01]]> st1) args4 = (st3, inl md3)
    /\ resize_async st3 md3 [2%nat] = (st4, inl md4)
    /\ md_shape md4 = [2%nat]
    /\ fully_outside [2%nat] [2%nat] [3%nat] = true
    /\ st4 !! inr [3%nat] = Some (OBlob [Byte.x01]).
Proof.
  do 6 eexists. split; [reflexivity|]. split; [reflexivity|]. split; [reflexivity|].
  split; [reflexivity|]. split; vm_compute; reflexivity.
Qed.

(** C6 (amended): a [resize_async] with a new shape of the same rank
    that completes deletes exactly the chunks of the old grid missing
    from the new grid, leaves every other chunk key as it was, and
    writes the metadata document with the new shape. No chunk fully
    outside the new shape has a key afterwards when every chunk key of
    the store lay in the old grid. *)
Theorem resize_deletes_outside (st st' : store) (md md' : ArrayMetadata)
  (ns : list nat) :
  resize_async st md ns = (st', inl md') ->
  let cs := md_chunk_shape md in
  let old := all_chunk_coords (md_shape md) cs in
  let new := all_chunk_coords ns cs in
  length ns = length (md_shape md)
  /\ md' = with_shape md ns
  /\ st' !! ZARR_JSON = Some (ODoc md')
  /\ (forall c, In c old -> ~ In c new -> st' !! inr c = None)
  /\ (forall c, ~ (In c old /\ ~ In c new) -> st' !! inr c = st !! inr c)
  /\ (Forall (fun m => 0 < m)%nat cs ->
      (forall c, is_Some (st !! inr c) -> In c old) ->
      forall c, fully_outside ns cs c = true -> st' !! inr c = None).
Proof.
  intros H cs old new. unfold resize_async in H.
  destruct (resize_ops md ns) as [[gone md1]|] eqn:E; [|discriminate].
  destruct (metadata_json_ok md1); [|discriminate].
  injection H as <- <-.
  destruct (resize_ops_gone _ _ _ _ E) as (Hlen & -> & Hgone).
  fold cs old new in Hgone.
  assert (Hst : forall c, <[ZARR_JSON := ODoc (with_shape md ns)]> (delete_chunks st gone) !! inr c
                          = if bool_decide (c ∈ gone) then None else st !! inr c).
  { intros c. rewrite lookup_insert_ne by discriminate.
    rewrite fold_deletes, (bool_decide_ext (inr c ∈ map inr gone) (c ∈ gone));
      [reflexivity|]. rewrite in_map_inr, list_elem_of_In. reflexivity. }
  split; [exact Hlen|]. split; [reflexivity|].
  split; [apply lookup_insert_eq|].
  split; [|split].
  - intros c Hold Hnew. rewrite Hst, bool_decide_eq_true_2; [reflexivity|].
    apply list_elem_of_In, Hgone. auto.
  - intros c Hn. rewrite Hst, bool_decide_eq_false_2; [reflexivity|].
    rewrite list_elem_of_In, Hgone. exact Hn.
  - intros Hcs Hkeys c Hout. rewrite Hst.
    destruct (bool_decide (c ∈ gone)) eqn:Eg; [reflexivity|].
    apply bool_decide_eq_false in Eg. rewrite list_elem_of_In, Hgone in Eg.
    destruct (st !! inr c) eqn:Ec; [|reflexivity]. exfalso. apply Eg. split.
    + apply Hkeys. rewrite Ec. eauto.
    + apply fully_outside_not_in_grid; assumption.
Qed.

Lemma resize_deletes_outside_witness :
  let md := mkMeta [4%nat; 4%nat] int32 [2%nat; 2%nat] (DefaultEncoding "/") (PInt 0)
              [endian_codec] None [] in
  let st : store := <[inr [1%nat; 1%nat] := OBlob []]> (<[inr [0%nat; 1%nat] := OBlob []]>
                      {[ ZARR_JSON := ODoc md ]}) in
  exists st' md', resize_async st md [2%nat; 4%nat] = (st', inl md')
  /\ (let cs := md_chunk_shape md in
      let old := all_chunk_coords (md_shape md) cs in
      let new := all_chunk_coords [2%nat; 4%nat] cs in
      length [2%nat; 4%nat] = length (md_shape md)
      /\ md' = with_shape md [2%nat; 4%nat]
      /\ st' !! ZARR_JSON = Some (ODoc md')
      /\ (forall c, In c old -> ~ In c new -> st' !! inr c = None)
      /\ (forall c, ~ (In c old /\ ~ In c new) -> st' !! inr c = st !! inr c)
      /\ (Forall (fun m => 0 < m)%nat cs ->
          (forall c, is_Some (st !! inr c) -> In c old) ->
          forall c, fully_outside [2%nat; 4%nat] cs c = true -> st' !! inr c = None)).
Proof.
  intros md st. eexists. eexists. split; [reflexivity|].
  apply resize_deletes_outside. reflexivity.
Defined.

End ResizeFacts.

Module GridFacts.
Import Engine IndexFacts EngineFacts.

Lemma dim_chunks_in_grid (a b n N k : nat) :
  (b <= N)%nat -> In k (dim_chunks a b n) -> In k (seq 0 (ceildiv N n)).
Proof.
  unfold dim_chunks, ceildiv. intros Hb Hk. apply in_seq in Hk. apply in_seq.
  assert (((b + n - 1) / n <= (N + n - 1) / n)%nat) by (apply Nat.Div0.div_le_mono; lia).
  lia.
Qed.

Lemma sel_chunks_in_grid (shape : list nat) (sel : list slice) (cs : list nat) (c : coord) :
  valid_selection shape sel = true -> In c (sel_chunks sel cs) ->
  In c (Resize.all_chunk_coords shape cs).
Proof.
  unfold sel_chunks, Resize.all_chunk_coords. rewrite !cartesian_In.
  revert sel cs c. induction shape as [|N shape IH]; intros [|[a b] sel] cs c Hv Hc;
    try discriminate.
  - exact Hc.
  - simpl in Hv. apply andb_true_iff in Hv as [Hv Hv'].
    apply andb_true_iff in Hv as [_ Hb]. apply Nat.leb_le in Hb.
    destruct cs as [|n cs]; [inversion Hc; constructor|].
    inversion Hc as [|k r c' rs Hk Hc']; subst. simpl. constructor.
    + apply (dim_chunks_in_grid a b n N k Hb Hk).
    + apply (IH sel cs c' Hv' Hc').
Qed.

Section Grid.
Variable V : Type.
Context `{EqDecision V}.
Variable shape chunk_shape : list nat.
Variable fill_value : V.
Variable sharded : bool.
Variable B : Type.
Variable encode : (coord -> V) -> B.
Variable decode : B -> option (coord -> V).

Local Abbreviation write_all := (write_all V chunk_shape fill_value sharded B encode decode).

Lemma write_all_keys (st : gmap coord B) (v : wvalue V) ts (c : coord) :
  is_Some ((write_all st v ts).1 !! c) ->
  is_Some (st !! c) \/ In c (map (fun t => t.1.1) ts).
Proof.
  revert st. induction ts as [|[[c' csel] osel] ts IH]; intros st Hc;
    cbn [Engine.write_all map fst] in *; [auto|].
  destruct (Engine.write_chunk V chunk_shape fill_value sharded B encode decode st v
              (c', csel, osel)) as [st1|] eqn:E; [|left; exact Hc].
  destruct (IH st1 Hc) as [H1|H1]; [|right; right; exact H1].
  destruct (decide (c = c')) as [->|Hne]; [right; left; reflexivity|].
  apply write_chunk_store in E as [ch ->]. rewrite wcs_other in H1 by exact Hne.
  left; exact H1.
Qed.

(** Writes create chunk keys only inside the chunk grid of [shape]. *)
Lemma set_many_keys_in_grid (st : gmap coord B) ws :
  (forall c, is_Some (st !! c) -> In c (Resize.all_chunk_coords shape chunk_shape)) ->
  forall c, is_Some (set_many V shape chunk_shape fill_value sharded B encode decode st ws !! c) ->
  In c (Resize.all_chunk_coords shape chunk_shape).
Proof.
  revert st. induction ws as [|[sel v] ws IH]; intros st Hst; simpl; [exact Hst|].
  apply IH. intros c Hc. unfold set_async in Hc.
  destruct (valid_selection shape sel) eqn:Hv; [|auto].
  assert (Hw : forall st', st' = (write_all st v (indexer sel chunk_shape)).1 ->
            is_Some (st' !! c) -> In c (Resize.all_chunk_coords shape chunk_shape)).
  { intros st' -> Hc'. apply write_all_keys in Hc' as [Hc'|Hc']; [auto|].
    rewrite indexer_keys in Hc'. apply (sel_chunks_in_grid shape sel chunk_shape c Hv Hc'). }
  destruct v as [x|a]; [apply (Hw _ eq_refl Hc)|].
  destruct (decide (nd_shape a = sel_shape sel)); [apply (Hw _ eq_refl Hc)|auto].
Qed.
End Grid.

Lemma set_many_keys_in_grid_witness :
  (forall c, is_Some ((∅ : gmap coord (coord -> Z)) !! c) ->
     In c (Resize.all_chunk_coords [4%nat] [2%nat])) /\
  forall c, is_Some (set_many Z [4%nat] [2%nat] 0%Z false (coord -> Z) (fun ch => ch) Some ∅
                       [([(0, 4)%nat], WScalar 5%Z); ([(1, 3)%nat], WScalar 6%Z)] !! c) ->
  In c (Resize.all_chunk_coords [4%nat] [2%nat]).
Proof.
  assert (H : forall c, is_Some ((∅ : gmap coord (coord -> Z)) !! c) ->
                In c (Resize.all_chunk_coords [4%nat] [2%nat])).
  { intros c [x Hx]. rewrite lookup_empty in Hx. discriminate. }
  split; [exact H|]. exact (set_many_keys_in_grid Z [4%nat] [2%nat] 0%Z false _ _ Some ∅ _ H).
Defined.

End GridFacts.

Module MetaExtras.
Import Meta Resize.

(** The store of an existing array, and [create] arguments whose
    [chunk_shape] rank is not the rank of [shape]. *)
Definition doc_store : store :=
  {[ ZARR_JSON := ODoc (mkMeta [4%nat] int32 [2%nat] (DefaultEncoding "/") (PInt 0)
                          [endian_codec] None []) ]}.

Definition rank_mismatch_args : create_args :=
  mkArgs [4%nat] int32 [2%nat; 2%nat] (PInt 0) (DefaultEncoding "/") None None None true.

(** A [create_async] that raises leaves the store as it was: every
    check runs before the one write. *)
Theorem create_error_keeps_store (st st' : store) (a : create_args) (e : create_error) :
  create_async st a = (st', inr e) -> st' = st.
Proof.
  unfold create_async.
  destruct (negb (a_exists_ok a) && _); [congruence|].
  destruct (negb (pipeline_ok _)); [congruence|].
  unfold save_metadata. destruct (validate_metadata _); [congruence|].
  destruct (metadata_json_ok _); congruence.
Qed.

(** A [create_async] that succeeds returns the metadata built from its
    arguments, which is a valid codec pipeline, passes
    [_validate_metadata] and is encodable by [json.dumps], and its only
    store change is the metadata document. *)
Theorem create_success_valid (st st' : store) (a : create_args) (md : ArrayMetadata) :
  create_async st a = (st', inl md) ->
  md = build_metadata a
  /\ pipeline_ok (md_codecs md) = true
  /\ validate_metadata md = None
  /\ metadata_json_ok md = true
  /\ st' = <[ZARR_JSON := ODoc md]> st.
Proof.
  unfold create_async.
  destruct (negb (a_exists_ok a) && _); [discriminate|].
  destruct (pipeline_ok (md_codecs (build_metadata a))) eqn:Hp; [|discriminate].
  unfold save_metadata. cbn [negb].
  destruct (validate_metadata (build_metadata a)) eqn:Hv; [discriminate|].
  destruct (metadata_json_ok (build_metadata a)) eqn:Hj; [|discriminate].
  intros [= <- <-]. auto.
Qed.

(** [resize_async] keeps the metadata valid: the document it writes
    passes [_validate_metadata] whenever the old one does. *)
Theorem resize_keeps_valid (st st' : store) (md md' : ArrayMetadata) (ns : list nat) :
  validate_metadata md = None ->
  resize_async st md ns = (st', inl md') ->
  validate_metadata md' = None.
Proof.
  intros Hv H. unfold resize_async, resize_ops in H.
  destruct (negb (length ns =? length (md_shape md))%nat) eqn:Hl; [discriminate|].
  destruct (metadata_json_ok _); [|discriminate].
  injection H as _ <-.
  apply negb_false_iff, Nat.eqb_eq in Hl.
  unfold validate_metadata in *. cbn [md_shape md_chunk_shape md_dimension_names md_fill_value with_shape].
  rewrite Hl. exact Hv.
Qed.

Lemma create_error_keeps_store_witness :
  exists st' e, create_async doc_store rank_mismatch_args = (st', inr e)
  /\ st' = doc_store.
Proof.
  destruct (create_async doc_store rank_mismatch_args) as [st' [md|e]] eqn:E;
    [vm_compute in E; discriminate|].
  exists st', e. split; [reflexivity|exact (create_error_keeps_store _ _ _ _ E)].
Defined.

Lemma create_success_valid_witness :
  exists st' md,
    create_async ∅ (mkArgs [4%nat] int32 [2%nat] PNone (DefaultEncoding "/") None None None false)
      = (st', inl md)
  /\ md = build_metadata (mkArgs [4%nat] int32 [2%nat] PNone (DefaultEncoding "/") None None None false)
  /\ pipeline_ok (md_codecs md) = true
  /\ validate_metadata md = None
  /\ metadata_json_ok md = true
  /\ st' = <[ZARR_JSON := ODoc md]> ∅.
Proof.
  destruct (create_async ∅ (mkArgs [4%nat] int32 [2%nat] PNone (DefaultEncoding "/") None None None false))
    as [st' [md|e]] eqn:E; [|vm_compute in E; discriminate].
  exists st', md. split; [reflexivity|exact (create_success_valid _ _ _ _ E)].
Defined.

Lemma resize_keeps_valid_witness :
  let md := mkMeta [4%nat; 4%nat] int32 [2%nat; 2%nat] (DefaultEncoding "/") (PInt 0)
              [endian_codec] None [] in
  validate_metadata md = None
  /\ exists st' md', resize_async ∅ md [2%nat; 6%nat] = (st', inl md')
  /\ validate_metadata md' = None.
Proof.
  intros md.
  assert (Hv : validate_metadata md = None) by reflexivity.
  split; [exact Hv|].
  destruct (resize_async ∅ md [2%nat; 6%nat]) as [st' [md'|e]] eqn:E;
    [|vm_compute in E; discriminate].
  exists st', md'. split; [reflexivity|exact (resize_keeps_valid _ _ _ _ _ Hv E)].
Defined.

End MetaExtras.

Module EngineExtras.
Import Engine IndexFacts SelFacts EngineFacts.

Section Extras.
Variable V : Type.
Context `{EqDecision V}.
Variable zero : V.
Variable shape chunk_shape : list nat.
Variable fill_value : V.
Variable sharded : bool.
Variable B : Type.
Variable encode : (coord -> V) -> B.
Variable decode : B -> option (coord -> V).

Local Abbreviation content := (Engine.content V fill_value B decode).
Local Abbreviation wcs := (write_chunk_to_store V chunk_shape fill_value B encode).
Local Abbreviation write_chunk := (Engine.write_chunk V chunk_shape fill_value sharded B encode decode).
Local Abbreviation write_all := (Engine.write_all V chunk_shape fill_value sharded B encode decode).
Local Abbreviation read_chunk := (Engine.read_chunk V fill_value sharded B decode).
Local Abbreviation read_all := (Engine.read_all V fill_value sharded B decode).
Local Abbreviation set_async := (Engine.set_async V shape chunk_shape fill_value sharded B encode decode).
Local Abbreviation get_async := (Engine.get_async V zero shape chunk_shape fill_value sharded B decode).

Lemma write_all_frame (st : gmap coord B) (v : wvalue V) ts (c : coord) :
  ~ In c (map (fun t => t.1.1) ts) -> (write_all st v ts).1 !! c = st !! c.
Proof.
  revert st. induction ts as [|[[c' csel] osel] ts IH]; intros st Hc;
    cbn [Engine.write_all map fst] in *; [reflexivity|].
  destruct (write_chunk st v (c', csel, osel)) as [st1|] eqn:E; [|reflexivity].
  rewrite IH by (intros H; apply Hc; right; exact H).
  apply write_chunk_store in E as [ch ->]. apply wcs_other.
  intros ->. apply Hc. left. reflexivity.
Qed.

(** Every chunk of a completed [write_all] was written by a
    [_write_chunk] that succeeded on a store holding the chunk's
    original key. *)
Lemma write_all_true_inv (st : gmap coord B) (v : wvalue V) ts :
  (write_all st v ts).2 = true -> NoDup (map (fun t => t.1.1) ts) ->
  forall c csel osel, In (c, csel, osel) ts ->
  exists st1, st1 !! c = st !! c /\ is_Some (write_chunk st1 v (c, csel, osel)).
Proof.
  revert st. induction ts as [|[[c' csel'] osel'] ts IH]; intros st Hw Hnd c csel osel Hin;
    [destruct Hin|].
  cbn [Engine.write_all map fst] in Hw. simpl in Hnd. apply NoDup_cons in Hnd as [Hc' Hnd].
  destruct (write_chunk st v (c', csel', osel')) as [st1|] eqn:E; [|discriminate].
  destruct Hin as [Heq|Hin].
  - injection Heq as -> -> ->. exists st. split; [reflexivity|]. rewrite E. eauto.
  - destruct (IH st1 Hw Hnd c csel osel Hin) as (st2 & H2 & Hs).
    exists st2. split; [|exact Hs]. rewrite H2.
    apply write_chunk_store in E as [ch ->]. apply wcs_other.
    intros ->. apply Hc'. apply list_elem_of_In, in_map_iff.
    exists (c', csel, osel). split; [reflexivity|exact Hin].
Qed.

Lemma set_async_true_inv (st : gmap coord B) (sel : list slice) (v : wvalue V) :
  (set_async st sel v).2 = true ->
  forall c csel osel, In (c, csel, osel) (indexer sel chunk_shape) ->
  exists st1, st1 !! c = st !! c /\ is_Some (write_chunk st1 v (c, csel, osel)).
Proof.
  intros H. unfold Engine.set_async in H.
  assert (Hnd : NoDup (map (fun t => t.1.1) (indexer sel chunk_shape)))
    by (rewrite indexer_keys; apply sel_chunks_NoDup).
  destruct (valid_selection shape sel); [|discriminate].
  destruct v as [x|a].
  - exact (write_all_true_inv st _ _ H Hnd).
  - destruct (decide (nd_shape a = sel_shape sel)); [|discriminate].
    exact (write_all_true_inv st _ _ H Hnd).
Qed.

(** [_set_async] changes only the keys of the chunks the selection
    overlaps, whether it completes or raises part-way. *)
Theorem set_async_frame (st : gmap coord B) (sel : list slice) (v : wvalue V) (c : coord) :
  ~ In c (sel_chunks sel chunk_shape) ->
  (set_async st sel v).1 !! c = st !! c.
Proof.
  intros Hc. unfold Engine.set_async.
  assert (Hc' : ~ In c (map (fun t => t.1.1) (indexer sel chunk_shape)))
    by (rewrite indexer_keys; exact Hc).
  destruct (valid_selection shape sel); [|reflexivity].
  destruct v as [x|a]; [apply write_all_frame; exact Hc'|].
  destruct (decide (nd_shape a = sel_shape sel)); [apply write_all_frame; exact Hc'|reflexivity].
Qed.

(** Writing a scalar raises when the selection covers some chunk only
    partly: [_write_chunk] then indexes the scalar with
    [value[out_selection]]. *)
Theorem scalar_partial_write_raises (st : gmap coord B) (sel : list slice) (x : V) :
  existsb (fun t => negb (is_total_slice t.1.2 chunk_shape)) (indexer sel chunk_shape) = true ->
  (set_async st sel (WScalar x)).2 = false.
Proof.
  intros Hp. apply existsb_exists in Hp as ([[c csel] osel] & Hin & Ht).
  apply negb_true_iff in Ht. simpl in Ht.
  destruct ((set_async st sel (WScalar x)).2) eqn:H; [|reflexivity].
  destruct (set_async_true_inv st sel _ H c csel osel Hin) as (st1 & _ & Hs).
  unfold Engine.write_chunk in Hs. rewrite Ht in Hs.
  destruct sharded; [destruct Hs; discriminate|].
  destruct (decode_chunk V B decode st1 c); destruct Hs; discriminate.
Qed.

(** For an array without sharding, a write that covers a chunk only
    partly raises when the chunk's stored bytes do not decode: the
    partial write merges into the decoded chunk. *)
Theorem partial_write_malformed_raises (st : gmap coord B) (sel : list slice) (v : wvalue V)
  c csel osel b :
  sharded = false ->
  In (c, csel, osel) (indexer sel chunk_shape) ->
  is_total_slice csel chunk_shape = false ->
  st !! c = Some b -> decode b = None ->
  (set_async st sel v).2 = false.
Proof.
  intros Hns Hin Ht Hb Hd.
  destruct ((set_async st sel v).2) eqn:H; [|reflexivity].
  destruct (set_async_true_inv st sel v H c csel osel Hin) as (st1 & H1 & Hs).
  unfold Engine.write_chunk in Hs. rewrite Ht, Hns in Hs.
  unfold decode_chunk in Hs. rewrite H1, Hb, Hd in Hs. destruct Hs; discriminate.
Qed.

Lemma read_all_none (st : gmap coord B) ts t out :
  In t ts -> (forall out', read_chunk st t out' = None) -> read_all st ts out = None.
Proof.
  revert out. induction ts as [|t' ts IH]; intros out Hin Hn; [destruct Hin|].
  cbn [Engine.read_all]. destruct Hin as [<-|Hin].
  - rewrite Hn. reflexivity.
  - destruct (read_chunk st t' out); [|reflexivity]. apply IH; assumption.
Qed.

(** For an array without sharding, [_get_async] raises when a chunk the
    selection overlaps is stored but does not decode. *)
Theorem get_malformed_raises (st : gmap coord B) (sel : list slice) c b :
  sharded = false ->
  In c (sel_chunks sel chunk_shape) -> st !! c = Some b -> decode b = None ->
  get_async st sel = None.
Proof.
  intros Hns Hc Hb Hd. unfold Engine.get_async.
  destruct (valid_selection shape sel); [|reflexivity].
  rewrite (read_all_none st _ (c, chunk_selection sel chunk_shape c, out_selection sel chunk_shape c)).
  - reflexivity.
  - apply indexer_In. auto.
  - intros out'. unfold Engine.read_chunk, decode_chunk.
    rewrite Hns, Hb, Hd. reflexivity.
Qed.

Section Codec.
Hypothesis codec_roundtrip : forall ch, exists ch',
  decode (encode ch) = Some ch'
  /\ forall j, in_shape chunk_shape j = true -> ch' j = ch j.

Lemma write_all_scalar_total (st : gmap coord B) (x : V) ts :
  (forall t, In t ts -> is_total_slice t.1.2 chunk_shape = true) ->
  NoDup (map (fun t => t.1.1) ts) ->
  exists st', write_all st (WScalar x) ts = (st', true)
  /\ forall t, In t ts -> exists ch, content st' t.1.1 = Some ch
     /\ forall j, in_shape chunk_shape j = true -> ch j = x.
Proof.
  revert st. induction ts as [|[[c csel] osel] ts IH]; intros st Ht Hnd.
  - exists st. split; [reflexivity|]. intros t [].
  - simpl in Hnd. apply NoDup_cons in Hnd as [Hc Hnd].
    assert (E : write_chunk st (WScalar x) (c, csel, osel) = Some (wcs st c (fun _ => x))).
    { unfold Engine.write_chunk. pose proof (Ht _ (or_introl eq_refl)) as H0. simpl in H0. rewrite H0. reflexivity. }
    destruct (IH (wcs st c (fun _ => x))) as (st' & Hw & Hcont).
    { intros t Hin. apply Ht. right. exact Hin. }
    { exact Hnd. }
    exists st'. split.
    + cbn [Engine.write_all]. rewrite E. exact Hw.
    + intros t [<-|Hin]; [|exact (Hcont t Hin)].
      destruct (content_wcs V chunk_shape fill_value B encode decode codec_roundtrip
                  st c (fun _ => x)) as (ch & Hch & Hag).
      exists ch. split; [|exact Hag].
      simpl. rewrite <- Hch. apply content_lookup.
      replace st' with (write_all (wcs st c (fun _ => x)) (WScalar x) ts).1 by (rewrite Hw; reflexivity).
      apply write_all_frame. intros H. apply Hc. apply list_elem_of_In. exact H.
Qed.

(** Writing a scalar into a valid selection that covers each chunk it
    overlaps entirely completes, and reading the selection back gives
    the scalar at every index, whatever the store held before. *)
Theorem scalar_total_write_reads_back (st : gmap coord B) (sel : list slice) (x : V) :
  Forall (fun n => 0 < n)%nat chunk_shape ->
  length chunk_shape = length shape ->
  valid_selection shape sel = true ->
  forallb (fun t => is_total_slice t.1.2 chunk_shape) (indexer sel chunk_shape) = true ->
  exists st' out,
    set_async st sel (WScalar x) = (st', true)
    /\ get_async st' sel = Some out
    /\ nd_shape out = sel_shape sel
    /\ forall i, in_shape (sel_shape sel) i = true -> nd_get out i = x.
Proof.
  intros Hcs Hlen Hv Htot.
  assert (Hl : length chunk_shape = length sel)
    by (rewrite (valid_selection_length shape sel Hv); exact Hlen).
  rewrite forallb_forall in Htot.
  destruct (write_all_scalar_total st x (indexer sel chunk_shape)) as (st' & Hw & Hcont).
  { intros t Ht. apply Htot. exact Ht. }
  { rewrite indexer_keys. apply sel_chunks_NoDup. }
  destruct (read_all_some V fill_value sharded B decode st' (indexer sel chunk_shape)
              (fun _ => zero)) as [out Hr].
  { intros t Ht. destruct (Hcont t Ht) as (ch & Hch & _). rewrite Hch. eauto. }
  exists st', (mkNd (sel_shape sel) out).
  unfold Engine.set_async, Engine.get_async. rewrite Hv, Hw, Hr.
  split; [reflexivity|]. split; [reflexivity|]. split; [reflexivity|].
  simpl. intros i Hi.
  set (c0 := chunk_of sel chunk_shape i).
  assert (Hc0 : In c0 (sel_chunks sel chunk_shape)) by (apply chunk_of_in; auto).
  assert (Ht0 : In (c0, chunk_selection sel chunk_shape c0, out_selection sel chunk_shape c0)
                   (indexer sel chunk_shape)) by (apply indexer_In; auto).
  destruct (Hcont _ Ht0) as (ch & Hch & Hval). simpl in Hch.
  destruct (write_pos sel chunk_shape i Hcs Hl Hi) as (Hb & Hs & Heq).
  rewrite (read_all_at V fill_value sharded B decode st' _ _ _ i _ _ _ ch Hr Ht0);
    [| apply out_box_iff; auto; apply (sel_chunks_length sel chunk_shape); auto
     | | exact Hch].
  - unfold c0 in *. rewrite (read_pos sel chunk_shape i Hcs Hl Hi). apply Hval. exact Hs.
  - intros [[c csel] osel] Ht Hin. apply indexer_In in Ht as (Hc & -> & ->).
    simpl in Hin. apply out_box_iff in Hin; auto.
    + subst c. reflexivity.
    + apply (sel_chunks_length sel chunk_shape); auto.
Qed.

Lemma write_chunk_keeps_outside (st st1 : gmap coord B) (v : wvalue V) c csel osel ch :
  write_chunk st v (c, csel, osel) = Some st1 -> content st c = Some ch ->
  exists ch1, content st1 c = Some ch1
  /\ forall j, in_shape chunk_shape j = true -> in_box csel j = false -> ch1 j = ch j.
Proof.
  intros Hw Hc. unfold Engine.write_chunk in Hw.
  destruct (is_total_slice csel chunk_shape) eqn:Ht.
  - injection Hw as <-.
    destruct (content_wcs V chunk_shape fill_value B encode decode codec_roundtrip st c
                match v with WScalar x => fun _ => x | WArray a => subarray V (nd_get a) osel end)
      as (ch1 & H1 & _).
    exists ch1. split; [exact H1|]. intros j Hj Hb.
    rewrite (total_slice_box csel chunk_shape j Ht Hj) in Hb. discriminate.
  - unfold Engine.content in Hc. destruct sharded.
    + destruct (value_sub V v osel) as [sub|]; [|discriminate].
      unfold sharding_encode_partial in Hw. rewrite Hc in Hw. injection Hw as <-.
      set (a' := fun j => if in_box csel j then sub (vsub j (box_lo csel)) else ch j).
      assert (E : (if Engine.all_fill V chunk_shape fill_value a' then delete c st
                   else <[c := encode a']> st) = wcs st c a') by reflexivity.
      rewrite E.
      destruct (content_wcs V chunk_shape fill_value B encode decode codec_roundtrip st c a')
        as (ch1 & H1 & Hag).
      exists ch1. split; [exact H1|]. intros j Hj Hb. rewrite (Hag j Hj). unfold a'. rewrite Hb.
      reflexivity.
    + unfold decode_chunk in Hw.
      destruct (st !! c) as [b|] eqn:Eb.
      * rewrite Hc in Hw. destruct (value_sub V v osel) as [sub|]; [|discriminate].
        injection Hw as <-.
        destruct (content_wcs V chunk_shape fill_value B encode decode codec_roundtrip st c
                    (fun j => if in_box csel j then sub (vsub j (box_lo csel)) else ch j))
          as (ch1 & H1 & Hag).
        exists ch1. split; [exact H1|]. intros j Hj Hb. rewrite (Hag j Hj), Hb. reflexivity.
      * injection Hc as <-. destruct (value_sub V v osel) as [sub|]; [|discriminate].
        injection Hw as <-.
        destruct (content_wcs V chunk_shape fill_value B encode decode codec_roundtrip st c
                    (fun j => if in_box csel j then sub (vsub j (box_lo csel)) else fill_value))
          as (ch1 & H1 & Hag).
        exists ch1. split; [exact H1|]. intros j Hj Hb. rewrite (Hag j Hj), Hb. reflexivity.
Qed.

Lemma write_all_keeps_outside (st st' : gmap coord B) (v : wvalue V) ts c ch :
  write_all st v ts = (st', true) -> NoDup (map (fun t => t.1.1) ts) ->
  content st c = Some ch ->
  exists ch', content st' c = Some ch'
  /\ forall j, in_shape chunk_shape j = true ->
     (forall csel osel, In (c, csel, osel) ts -> in_box csel j = false) -> ch' j = ch j.
Proof.
  revert st. induction ts as [|[[c0 csel0] osel0] ts IH]; intros st Hw Hnd Hc;
    cbn [Engine.write_all] in Hw.
  - injection Hw as ->. exists ch. auto.
  - simpl in Hnd. apply NoDup_cons in Hnd as [Hc0 Hnd].
    destruct (write_chunk st v (c0, csel0, osel0)) as [st1|] eqn:E; [|discriminate].
    destruct (decide (c = c0)) as [->|Hne].
    + destruct (write_chunk_keeps_outside st st1 v c0 csel0 osel0 ch E Hc) as (ch1 & H1 & Hag).
      exists ch1. split.
      * rewrite <- H1. apply content_lookup.
        replace st' with (write_all st1 v ts).1 by (rewrite Hw; reflexivity).
        apply write_all_frame. intros Hin. apply Hc0. apply list_elem_of_In. exact Hin.
      * intros j Hj Hout. apply Hag; [exact Hj|]. apply (Hout csel0 osel0). left. reflexivity.
    + assert (Hc1 : content st1 c = Some ch).
      { rewrite <- Hc. apply content_lookup.
        apply write_chunk_store in E as [ch0 ->]. apply wcs_other. exact Hne. }
      destruct (IH st1 Hw Hnd Hc1) as (ch' & H' & Hag).
      exists ch'. split; [exact H'|]. intros j Hj Hout. apply Hag; [exact Hj|].
      intros csel osel Hin. apply (Hout csel osel). right. exact Hin.
Qed.

(** A write that completes leaves every chunk cell the selection does
    not cover as it was: the content of every chunk changes only at the
    cells of its [chunk_selection]. *)
Theorem set_async_keeps_outside (st st' : gmap coord B) (sel : list slice) (v : wvalue V)
  (c : coord) (ch : coord -> V) :
  set_async st sel v = (st', true) ->
  content st c = Some ch ->
  exists ch', content st' c = Some ch'
  /\ forall j, in_shape chunk_shape j = true ->
     (In c (sel_chunks sel chunk_shape) -> in_box (chunk_selection sel chunk_shape c) j = false) ->
     ch' j = ch j.
Proof.
  intros Hs Hc.
  assert (Hnd : NoDup (map (fun t => t.1.1) (indexer sel chunk_shape)))
    by (rewrite indexer_keys; apply sel_chunks_NoDup).
  assert (Hw : write_all st v (indexer sel chunk_shape) = (st', true)).
  { unfold Engine.set_async in Hs. destruct (valid_selection shape sel); [|discriminate].
    destruct v as [x|a]; [exact Hs|].
    destruct (decide (nd_shape a = sel_shape sel)); [exact Hs|discriminate]. }
  destruct (write_all_keeps_outside st st' v _ c ch Hw Hnd Hc) as (ch' & H' & Hag).
  exists ch'. split; [exact H'|]. intros j Hj Hout. apply Hag; [exact Hj|].
  intros csel osel Hin. apply indexer_In in Hin as (Hin & -> & _). apply Hout. exact Hin.
Qed.
End Codec.

End Extras.


Lemma set_async_frame_witness :
  ~ In [1%nat] (sel_chunks [(0, 2)%nat] [2%nat]) /\
  (Engine.set_async Z [4%nat] [2%nat] 0%Z false (coord -> Z) (fun ch => ch) Some
     {[ [1%nat] := (fun _ => 7%Z) ]} [(0, 2)%nat] (WScalar 5%Z)).1 !! [1%nat]
  = ({[ [1%nat] := (fun _ => 7%Z) ]} : gmap coord (coord -> Z)) !! [1%nat].
Proof.
  assert (Hc : ~ In [1%nat] (sel_chunks [(0, 2)%nat] [2%nat]))
    by (vm_compute; intros [H|H]; [discriminate|exact H]).
  split; [exact Hc|]. exact (set_async_frame Z _ _ _ _ _ _ _ _ _ _ _ Hc).
Defined.

Lemma scalar_partial_write_raises_witness :
  existsb (fun t => negb (is_total_slice t.1.2 [2%nat])) (indexer [(0, 5)%nat] [2%nat]) = true /\
  (Engine.set_async Z [5%nat] [2%nat] 0%Z false (coord -> Z) (fun ch => ch) Some
     ∅ [(0, 5)%nat] (WScalar 5%Z)).2 = false.
Proof.
  assert (Hp : existsb (fun t => negb (is_total_slice t.1.2 [2%nat])) (indexer [(0, 5)%nat] [2%nat])
               = true) by (vm_compute; reflexivity).
  split; [exact Hp|]. exact (scalar_partial_write_raises Z [5%nat] [2%nat] 0%Z false _ _ Some ∅ _ _ Hp).
Defined.

Lemma partial_write_malformed_raises_witness :
  In ([0%nat], [(0, 1)%nat], [(0, 1)%nat]) (indexer [(0, 1)%nat] [2%nat]) /\
  is_total_slice [(0, 1)%nat] [2%nat] = false /\
  ({[ [0%nat] := None ]} : gmap coord (option (coord -> Z))) !! [0%nat] = Some None /\
  (fun b : option (coord -> Z) => b) None = None /\
  (Engine.set_async Z [4%nat] [2%nat] 0%Z false (option (coord -> Z)) Some (fun b => b)
     {[ [0%nat] := None ]} [(0, 1)%nat] (WArray (mkNd [1%nat] (fun _ => 3%Z)))).2 = false.
Proof.
  assert (Hin : In ([0%nat], [(0, 1)%nat], [(0, 1)%nat]) (indexer [(0, 1)%nat] [2%nat]))
    by (vm_compute; left; reflexivity).
  assert (Ht : is_total_slice [(0, 1)%nat] [2%nat] = false) by reflexivity.
  assert (Hb : ({[ [0%nat] := None ]} : gmap coord (option (coord -> Z))) !! [0%nat] = Some None)
    by (vm_compute; reflexivity).
  assert (Hd : (fun b : option (coord -> Z) => b) None = None) by reflexivity.
  split; [exact Hin|]. split; [exact Ht|]. split; [exact Hb|]. split; [exact Hd|].
  exact (partial_write_malformed_raises Z [4%nat] [2%nat] 0%Z false _ Some (fun b => b)
           _ _ _ _ _ _ _ eq_refl Hin Ht Hb Hd).
Defined.

Lemma get_malformed_raises_witness :
  In [0%nat] (sel_chunks [(0, 2)%nat] [2%nat]) /\
  ({[ [0%nat] := None ]} : gmap coord (option (coord -> Z))) !! [0%nat] = Some None /\
  (fun b : option (coord -> Z) => b) None = None /\
  Engine.get_async Z 0%Z [4%nat] [2%nat] 0%Z false (option (coord -> Z)) (fun b => b)
    {[ [0%nat] := None ]} [(0, 2)%nat] = None.
Proof.
  assert (Hc : In [0%nat] (sel_chunks [(0, 2)%nat] [2%nat])) by (vm_compute; left; reflexivity).
  assert (Hb : ({[ [0%nat] := None ]} : gmap coord (option (coord -> Z))) !! [0%nat] = Some None)
    by (vm_compute; reflexivity).
  assert (Hd : (fun b : option (coord -> Z) => b) None = None) by reflexivity.
  split; [exact Hc|]. split; [exact Hb|]. split; [exact Hd|].
  exact (get_malformed_raises Z 0%Z [4%nat] [2%nat] 0%Z false _ (fun b => b) _ _ _ _ eq_refl Hc Hb Hd).
Defined.

Lemma scalar_total_write_reads_back_witness :
  exists st' out,
    Engine.set_async Z [4%nat; 4%nat] [2%nat; 2%nat] 0%Z false (coord -> Z) (fun ch => ch) Some
      ∅ [(0, 4); (2, 4)]%nat (WScalar 5%Z) = (st', true)
    /\ Engine.get_async Z 0%Z [4%nat; 4%nat] [2%nat; 2%nat] 0%Z false (coord -> Z) Some st'
         [(0, 4); (2, 4)]%nat = Some out
    /\ nd_shape out = sel_shape [(0, 4); (2, 4)]%nat
    /\ forall i, in_shape (sel_shape [(0, 4); (2, 4)]%nat) i = true -> nd_get out i = 5%Z.
Proof.
  apply scalar_total_write_reads_back.
  - intros ch. exists ch. split; reflexivity.
  - constructor; [lia|constructor; [lia|constructor]].
  - reflexivity.
  - reflexivity.
  - vm_compute. reflexivity.
Defined.


Lemma set_async_keeps_outside_witness :
  exists st', Engine.set_async Z [4%nat] [2%nat] 0%Z false (coord -> Z) (fun ch => ch) Some
      {[ [0%nat] := (fun _ => 7%Z) ]} [(1, 2)%nat] (WArray (mkNd [1%nat] (fun _ => 3%Z))) = (st', true)
  /\ exists ch', Engine.content Z 0%Z (coord -> Z) Some st' [0%nat] = Some ch'
  /\ forall j, in_shape [2%nat] j = true ->
     (In [0%nat] (sel_chunks [(1, 2)%nat] [2%nat]) ->
      in_box (chunk_selection [(1, 2)%nat] [2%nat] [0%nat]) j = false) ->
     ch' j = 7%Z.
Proof.
  destruct (Engine.set_async Z [4%nat] [2%nat] 0%Z false (coord -> Z) (fun ch => ch) Some
      {[ [0%nat] := (fun _ => 7%Z) ]} [(1, 2)%nat] (WArray (mkNd [1%nat] (fun _ => 3%Z))))
    as [st' [|]] eqn:E; [|vm_compute in E; discriminate].
  exists st'. split; [reflexivity|].
  apply (set_async_keeps_outside Z [4%nat] [2%nat] 0%Z false (coord -> Z) (fun ch => ch) Some
           ltac:(intros ch; exists ch; split; reflexivity) _ _ _ _ [0%nat] (fun _ => 7%Z) E).
  vm_compute. reflexivity.
Defined.

End EngineExtras.

Module ResizeExtras.
Import Meta Resize IndexFacts ResizeFacts.

Lemma grid_mono (shape ns cs : list nat) (c : Engine.coord) :
  Forall2 (fun n n' => n <= n')%nat shape ns ->
  In c (all_chunk_coords shape cs) -> In c (all_chunk_coords ns cs).
Proof.
  unfold all_chunk_coords. rewrite !cartesian_In. intros Hle. revert cs c.
  induction Hle as [|n n' shape ns Hn Hle IH]; intros cs c Hc; [exact Hc|].
  destruct cs as [|m cs]; [exact Hc|].
  inversion Hc as [|k r c' rs Hk Hc']; subst. simpl. constructor.
  - apply in_seq in Hk. apply in_seq. unfold Engine.ceildiv in *.
    assert (((n + m - 1) / m <= (n' + m - 1) / m)%nat) by (apply Nat.Div0.div_le_mono; lia).
    lia.
  - apply IH. exact Hc'.
Qed.

(** [resize_async] to a shape no smaller along any axis deletes no
    chunk. When [json.dumps] can encode the metadata it completes, and
    its only store change is the new metadata document. *)
Theorem resize_grow_keeps_chunks (st : store) (md : ArrayMetadata) (ns : list nat) :
  Forall2 (fun n n' => n <= n')%nat (md_shape md) ns ->
  (forall c, (resize_async st md ns).1 !! inr c = st !! inr c)
  /\ (metadata_json_ok md = true ->
      resize_async st md ns
      = (<[ZARR_JSON := ODoc (with_shape md ns)]> st, inl (with_shape md ns))).
Proof.
  intros Hle.
  assert (Hlen : length ns = length (md_shape md)) by (symmetry; exact (Forall2_length _ _ _ Hle)).
  destruct (resize_ops md ns) as [[gone md1]|] eqn:E.
  2:{ exfalso. unfold resize_ops in E.
      rewrite (proj2 (Nat.eqb_eq _ _) Hlen) in E. discriminate. }
  destruct (resize_ops_gone _ _ _ _ E) as (_ & -> & Hgone).
  assert (Hnil : gone = []).
  { destruct gone as [|c gone]; [reflexivity|]. exfalso.
    destruct (proj1 (Hgone c) (or_introl eq_refl)) as [Hin Hn].
    exact (Hn (grid_mono _ _ _ _ Hle Hin)). }
  subst gone.
  assert (Hj : metadata_json_ok (with_shape md ns) = metadata_json_ok md) by reflexivity.
  unfold resize_async. rewrite E, Hj. cbn [delete_chunks fold_left].
  split.
  - intros c. destruct (metadata_json_ok md); cbn [fst]; [|reflexivity].
    apply lookup_insert_ne. discriminate.
  - intros ->. reflexivity.
Qed.

Lemma resize_grow_keeps_chunks_witness :
  let md := mkMeta [4%nat; 4%nat] int32 [2%nat; 2%nat] (DefaultEncoding "/") (PInt 0)
              [endian_codec] None [] in
  Forall2 (fun n n' => n <= n')%nat (md_shape md) [6%nat; 4%nat]
  /\ metadata_json_ok md = true
  /\ resize_async {[ inr [1%nat; 1%nat] := OBlob [] ]} md [6%nat; 4%nat]
     = (<[ZARR_JSON := ODoc (with_shape md [6%nat; 4%nat])]> {[ inr [1%nat; 1%nat] := OBlob [] ]},
        inl (with_shape md [6%nat; 4%nat])).
Proof.
  intros md.
  assert (Hle : Forall2 (fun n n' => n <= n')%nat (md_shape md) [6%nat; 4%nat])
    by (constructor; [lia|constructor; [lia|constructor]]).
  assert (Hj : metadata_json_ok md = true) by reflexivity.
  split; [exact Hle|]. split; [exact Hj|].
  exact (proj2 (resize_grow_keeps_chunks _ md _ Hle) Hj).
Defined.

End ResizeExtras.
